(** * poismf: alternating Poisson factorization (src/poismf/pgd.c)

    A shallow embedding of the C99 numerical core and the properties of
    its specification.

    Conventions of the embedding.
    - [double] is idealised as an exact rational ([Q]).  Two operations
      of the source have no rational value on part of their domain:
      the division [x / y] at [y = 0] and [log y] at [y <= 0].  They
      return [None] there, and every routine that consumes such a
      result returns [None] as well (an error monad on [option]).
    - [size_t] and [int] quantities (dimensions, loop counters, index
      arrays) are natural numbers: no wrap-around is modelled, and the
      difference of two row pointers is the truncated one.
    - A [double*] that is only read is a list; pointer arithmetic
      [p + off] on it is [drop off p].  A [double*] that is written is a
      list together with the offset the callee writes at; the callee
      returns the updated list.
    - Reads use the total lookup [l !!! i] and writes use [<[i:=v]> l]:
      outside the shape announced by the caller neither is meaningful
      (the C program has no defined behaviour there), so the theorems
      carry the shapes as hypotheses.
    - The row loops run as when the file is compiled without OpenMP:
      rows are visited in increasing order by the master thread, with
      its scratch buffer.  The two parallel regions of [run_poismf] that
      allocate and release the scratch buffers are modelled for a team
      of the master and any number of further workers.
    - Of the three BLAS bindings of the source, the plain C fallbacks
      are the ones embedded.
    - libm's [log] and the minimizer of the nonneg_cg package are not
      part of the repository and are parameters of the development. *)

From Stdlib Require Import QArith Qfield Qpower Lqa ZArith Lia String.
From stdpp Require Import base option list.

Global Instance Q_inhabited : Inhabited Q := populate 0%Q.

(** ** Arrays and counted loops *)

Abbreviation arr := (list Q).

(** [for (i = 0; i < n; i++) s = body i s] *)
Fixpoint for_loop {St : Type} (n : nat) (body : nat -> St -> St) (s : St) : St :=
  match n with
  | O => s
  | S m => body m (for_loop m body s)
  end.

(** The same loop when the body may be undefined. *)
Fixpoint for_loopM {St : Type} (n : nat) (body : nat -> St -> option St) (s : St)
  : option St :=
  match n with
  | O => Some s
  | S m => s' ← for_loopM m body s; body m s'
  end.

(** Left-to-right sum [f 0 + f 1 + ... + f (n-1)], accumulated from 0. *)
Definition sumQ (n : nat) (f : nat -> Q) : Q :=
  for_loop n (fun i acc => (acc + f i)%Q) 0%Q.

(** ** Checked arithmetic *)

Definition ddiv (x y : Q) : option Q :=
  if Qeq_bool y 0 then None else Some (x / y)%Q.

Definition Qltb (x y : Q) : bool := negb (Qle_bool y x).

(** [#define nonneg(x) (x >= 0)? x : 0] *)
Definition nonneg (x : Q) : Q := if Qle_bool 0 x then x else 0%Q.

(** ** libc and BLAS fallbacks (lines 56-64)

    The stride arguments [incx], [incy] are 1 at every call site and are
    ignored by the fallback definitions; they are left out. *)

Definition memset_zero (out : arr) (n : nat) : arr :=
  for_loop n (fun i o => <[i := 0%Q]> o) out.

Definition memcpy (dst src : arr) (n : nat) : arr :=
  for_loop n (fun i d => <[i := src !!! i]> d) dst.

Definition cblas_ddot (n : nat) (x y : arr) : Q :=
  for_loop n (fun i out => (out + x !!! i * y !!! i)%Q) 0%Q.

(** [y] is written at offset [yo]. *)
Definition cblas_daxpy (n : nat) (a : Q) (x : arr) (y : arr) (yo : nat) : arr :=
  for_loop n (fun i y => <[yo + i := (y !!! (yo + i)%nat + a * x !!! i)%Q]> y) y.

Definition cblas_dscal (n : nat) (alpha : Q) (x : arr) (xo : nat) : arr :=
  for_loop n (fun i x => <[xo + i := (x !!! (xo + i)%nat * alpha)%Q]> x) x.

(** ** Column sums (lines 92-105) *)

Definition sum_by_cols (out M : arr) (nrow ncol : nat) (ncores : Z) : arr :=
  let out := memset_zero out ncol in
  for_loop nrow (fun row out =>
    for_loop ncol (fun col out =>
      <[col := (out !!! col + M !!! (row * ncol + col)%nat)%Q]> out) out) out.

(** ** Allocation

    [malloc] either fails or returns a block whose contents are
    arbitrary; the outcome of each call is an input of the run.  Live
    blocks are tracked by identifier: 0 for [cnst_sum], 1 for the
    scratch buffer of the master thread, [2 + t] for the buffer of the
    additional worker [t] of the team. *)

Inductive malloc_outcome :=
  | MallocFail
  | MallocOk (garbage : nat -> Q).

Definition malloc (n : nat) (m : malloc_outcome) : option arr :=
  match m with
  | MallocFail => None
  | MallocOk garbage => Some (garbage <$> seq 0 n)
  end.

Definition is_null {T : Type} (p : option T) : bool :=
  match p with None => true | Some _ => false end.

Definition heap := list nat.

Definition heap_alloc {T : Type} (id : nat) (p : option T) (h : heap) : heap :=
  if is_null p then h else id :: h.

(** [free(p)]; [free(NULL)] does nothing. *)
Definition free {T : Type} (id : nat) (p : option T) (h : heap) : heap :=
  if is_null p then h else filter (fun j => j ≠ id) h.

(** What [run_poismf] leaves behind: the two factor matrices, what was
    printed on [stderr], and the blocks still allocated.  The C function
    is [void]: there is no status component. *)
Record result := {
  outA : arr;
  outB : arr;
  stderr : list string;
  live : heap
}.

Definition alloc_error_message : string :=
  "Error: Could not allocate memory for the procedure." ++
  String (Ascii.ascii_of_nat 10) EmptyString.

(** ** Data handed to the conjugate-gradient callbacks (lines 156-163) *)

Record fdata := {
  F : arr;
  Fsum : arr;
  X : arr;
  X_ind : list nat;
  nnz_this : nat;
  l2_reg : Q
}.

(** The variables of the outer loop of [run_poismf].  [cnst_div] is
    declared without a value (line 294) and holds a quotient that may
    be undefined: it is an [option]. *)
Record loop_state := {
  st_A : arr;
  st_B : arr;
  st_step_size : Q;
  st_neg_step_sz : Q;
  st_cnst_div : option Q;
  st_cnst_sum : arr;
  st_buffer_arr : arr
}.

(** The shape of the loop variables that [run_poismf] establishes
    before the loop and every iteration keeps: [A] is [dimA × k], [B] is
    [dimB × k], [cnst_sum] has room for [k] entries, so has the scratch
    buffer of the proximal-gradient solver, and [neg_step_sz] is the
    opposite of [step_size]. *)
Definition wf_state (dimA dimB k : nat) (use_cg : Z) (s : loop_state) : Prop :=
  length (st_A s) = dimA * k /\ length (st_B s) = dimB * k /\
  k <= length (st_cnst_sum s) /\
  (use_cg = 0%Z -> k <= length (st_buffer_arr s)) /\
  st_neg_step_sz s = (- st_step_size s)%Q.

Definition all_nonneg (M : arr) : Prop := Forall (fun x => (0 <= x)%Q) M.

(** Two loop states that hold the same arrays; the step size and the
    constants derived from it may differ. *)
Definition same_arrays (s t : loop_state) : Prop :=
  st_A s = st_A t /\ st_B s = st_B t /\
  st_cnst_sum s = st_cnst_sum t /\ st_buffer_arr s = st_buffer_arr t.

Definition opt_same_arrays (o1 o2 : option loop_state) : Prop :=
  match o1, o2 with
  | Some s, Some t => same_arrays s t
  | None, None => True
  | _, _ => False
  end.

(** Two computations that may be undefined are related when both are
    undefined, or both are defined and their values are related. *)
Definition opt_rel {S T : Type} (R : S -> T -> Prop)
    (o1 : option S) (o2 : option T) : Prop :=
  match o1, o2 with
  | Some a, Some b => R a b
  | None, None => True
  | _, _ => False
  end.

(** Two loop states that differ at most in what the allocated buffers
    hold: the matrices and the step size are the same, [cnst_sum] has
    its [k] entries in both, and the scratch buffers have their [k]
    entries (proximal gradient) or are the same (conjugate gradient,
    where the minimizer reads them). *)
Definition same_run_state (k : nat) (use_cg : Z) (s t : loop_state) : Prop :=
  st_A s = st_A t /\ st_B s = st_B t /\
  st_step_size s = st_step_size t /\ st_neg_step_sz s = st_neg_step_sz t /\
  length (st_cnst_sum s) = k /\ length (st_cnst_sum t) = k /\
  (if (use_cg =? 0)%Z
   then length (st_buffer_arr s) = k /\ length (st_buffer_arr t) = k
   else st_buffer_arr s = st_buffer_arr t).

(** The loop state with the roles of [A] and [B] exchanged. *)
Definition swap_roles (s : loop_state) : loop_state :=
  {| st_A := st_B s; st_B := st_A s;
     st_step_size := st_step_size s; st_neg_step_sz := st_neg_step_sz s;
     st_cnst_div := st_cnst_div s;
     st_cnst_sum := st_cnst_sum s; st_buffer_arr := st_buffer_arr s |}.

(** ** The formulas of the specification

    These follow the words of the specification, not the code; the
    theorems below compare the two. *)

(** [pred = dot(curr, F[index])] *)
Definition spec_pred (k : nat) (curr F : arr) (index : nat) : Q :=
  sumQ k (fun j => (curr !!! j * F !!! (index * k + j)%nat)%Q).

(** Entry [j] of the gradient-only form [Σ_i (x_i / pred_i) · F[index_i]]. *)
Definition spec_grad (k : nat) (curr F X : arr) (Xind : list nat) (nnz j : nat) : Q :=
  sumQ nnz (fun i =>
    (X !!! i / spec_pred k curr F (Xind !!! i) * F !!! (Xind !!! i * k + j)%nat)%Q).

(** Sum of column [col] of a dense [nrow × ncol] matrix. *)
Definition spec_colsum (M : arr) (nrow ncol col : nat) : Q :=
  sumQ nrow (fun row => M !!! (row * ncol + col)%nat).

(** One pass of the proximal-gradient solver on the row [curr]: steps
    1 to 5 of the solver, with [cnst_sum = −step_size·(colsum(F) + l1)]
    and [cnst_div = 1/(1 + 2·l2_reg·step_size)]. *)
Definition spec_pgd_pass (k : nat) (F : arr) (dimF : nat) (X : arr) (Xind : list nat)
    (nnz : nat) (step_size l1 l2_reg : Q) (curr : arr) : arr :=
  let cnst_div := (1 / (1 + 2 * l2_reg * step_size))%Q in
  (fun j =>
    let grad := spec_grad k curr F X Xind nnz j in
    let cnst_sum := (- step_size * (spec_colsum F dimF k j + l1))%Q in
    nonneg ((curr !!! j + step_size * grad + cnst_sum) * cnst_div)%Q) <$> seq 0 k.

(** The L1 penalty as the driver applies it: only when it is positive. *)
Definition l1_applied (l1_reg : Q) : Q := if Qltb 0 l1_reg then l1_reg else 0%Q.

(** Entry [j] of the combined gradient of the conjugate-gradient
    solver with the coefficient [c] on its L2 term:
    [Fsum + c·x − Σ_i (x_i / pred_i) · F[index_i]]. *)
Definition spec_grad_single (n : nat) (c : Q) (x F Fsum X : arr) (Xind : list nat)
    (nnz j : nat) : Q :=
  (Fsum !!! j + c * x !!! j - spec_grad n x F X Xind nnz j)%Q.

(** Row [i] of a dense row-major matrix with [k] columns. *)
Definition row_of (M : arr) (i k : nat) : arr := take k (drop (i * k) M).

(** Two vectors agree on their first [k] entries. *)
Definition eqk (k : nat) (u v : arr) : Prop :=
  forall j, j < k -> (u !!! j == v !!! j)%Q.

(** ** Example data

    The count matrix [[1 2] [3 0]] in its two compressed views, and a
    block of zeros for every allocation. *)

Definition ex_Xr : arr := [1; 2; 3]%Q.
Definition ex_Xr_indptr : list nat := [0; 2; 3].
Definition ex_Xr_indices : list nat := [0; 1; 0].
Definition ex_Xc : arr := [1; 3; 2]%Q.
Definition ex_Xc_indptr : list nat := [0; 2; 3].
Definition ex_Xc_indices : list nat := [0; 1; 0].
Definition zeros : malloc_outcome := MallocOk (fun _ => 0%Q).

(** ** Instances of the external parameters, for the examples *)

Definition log_stub : Q -> Q := fun _ => 0%Q.

(** A minimizer that takes one step against the gradient and keeps the
    scratch buffer as it is. *)
Definition descent_minimizer (x : arr) (n : nat)
    (calc_fun : arr -> nat -> fdata -> option Q)
    (calc_grad : arr -> nat -> arr -> fdata -> option arr)
    (cb : option unit) (data : fdata)
    (tol : Q) (cap1 cap2 : nat) (decr_lnsrch lnsrch_const : Q) (max_ls : nat)
    (extra_nonneg_tol : Z) (buffer : option arr) (nthreads verbose : Z)
  : option (arr * arr) :=
  g ← calc_grad x n (replicate n 0%Q) data;
  Some ((fun i => (x !!! i - g !!! i)%Q) <$> seq 0 n, default [] buffer).

(** A minimizer that returns its starting point. *)
Definition idle_minimizer (x : arr) (n : nat)
    (calc_fun : arr -> nat -> fdata -> option Q)
    (calc_grad : arr -> nat -> arr -> fdata -> option arr)
    (cb : option unit) (data : fdata)
    (tol : Q) (cap1 cap2 : nat) (decr_lnsrch lnsrch_const : Q) (max_ls : nat)
    (extra_nonneg_tol : Z) (buffer : option arr) (nthreads verbose : Z)
  : option (arr * arr) :=
  Some (x, default [] buffer).

Section Poismf.

(** libm's [log], on its domain. *)
Variable log : Q -> Q.

Definition dlog (y : Q) : option Q :=
  if Qltb 0 y then Some (log y) else None.

(** The minimizer of nonneg_cg, in the order of its arguments at the
    two call sites: the point [x] (its [n] entries), the two callbacks,
    the optional progress callback, the callback data, the tolerance,
    the two evaluation caps, the three line-search parameters,
    [extra_nonneg_tol], the scratch buffer ([None] for [NULL]),
    [nthreads] and [verbose].  It returns the refined point and the
    scratch buffer as it leaves it, or nothing when a callback was
    undefined.  The outputs [fun_val], [niter], [nfeval] and the return
    code are discarded by both callers. *)
Variable minimize_nonneg_cg :
  arr -> nat ->
  (arr -> nat -> fdata -> option Q) ->
  (arr -> nat -> arr -> fdata -> option arr) ->
  option unit -> fdata ->
  Q -> nat -> nat -> Q -> Q -> nat -> Z -> option arr -> Z -> Z ->
  option (arr * arr).

(** ** Proximal gradient (lines 115-153) *)

Definition calc_grad_pgd (out curr F X : arr) (Xind : list nat)
    (nnz_this k : nat) : option arr :=
  let out := memset_zero out k in
  for_loopM nnz_this (fun i out =>
    q ← ddiv (X !!! i) (cblas_ddot k (drop (Xind !!! i * k) F) curr);
    Some (cblas_daxpy k q (drop (Xind !!! i * k) F) out 0)) out.

(** One pass of the inner loop on row [ia] (lines 144-149). *)
Definition pgd_pass (B Xr : arr) (Xr_indptr Xr_indices : list nat) (k : nat)
    (cnst_div : Q) (cnst_sum : arr) (step_size : Q) (ia nnz_this : nat)
    (s : arr * arr) : option (arr * arr) :=
  let '(A, buffer_arr) := s in
  buffer_arr ← calc_grad_pgd buffer_arr (drop (ia * k) A) B
                  (drop (Xr_indptr !!! ia) Xr) (drop (Xr_indptr !!! ia) Xr_indices)
                  nnz_this k;
  let A := cblas_daxpy k step_size buffer_arr A (ia * k) in
  let A := cblas_daxpy k 1 cnst_sum A (ia * k) in
  let A := cblas_dscal k cnst_div A (ia * k) in
  let A := for_loop k (fun i A => <[ia * k + i := nonneg (A !!! (ia * k + i))]> A) A in
  Some (A, buffer_arr).

(** The state is the matrix being updated and the worker's scratch
    buffer ([buffer_arr], a thread-private global in the source).
    [nnz_this] is the difference of two consecutive row pointers; the
    truncated subtraction below is the source's [size_t] difference
    when the pointer array does not decrease, as in a compressed sparse
    matrix. *)
Definition pgd_iteration (A B Xr : arr) (Xr_indptr Xr_indices : list nat)
    (dimA k : nat) (cnst_div : Q) (cnst_sum : arr) (step_size : Q)
    (npass : nat) (ncores : Z) (buffer_arr : arr) : option (arr * arr) :=
  for_loopM dimA (fun ia s =>
    let nnz_this := Xr_indptr !!! (ia + 1) - Xr_indptr !!! ia in
    for_loopM npass (fun p s =>
      pgd_pass B Xr Xr_indptr Xr_indices k cnst_div cnst_sum step_size ia nnz_this s) s)
    (A, buffer_arr).

(** ** Conjugate gradient (lines 165-238) *)

Definition calc_fun_single (x : arr) (n : nat) (data : fdata) : option Q :=
  let out := cblas_ddot n (Fsum data) x in
  let norm_sq := cblas_ddot n x x in
  let out := (out + l2_reg data * norm_sq)%Q in
  for_loopM (nnz_this data) (fun i out =>
    l ← dlog (cblas_ddot n x (drop (X_ind data !!! i * n) (F data)));
    Some (out - X data !!! i * l)%Q) out.

Definition calc_grad_single (x : arr) (n : nat) (grad : arr) (data : fdata)
  : option arr :=
  let grad := memcpy grad (Fsum data) n in
  let grad := cblas_daxpy n (inject_Z (2 * Z.of_nat n) * l2_reg data) x grad 0 in
  for_loopM (nnz_this data) (fun i grad =>
    q ← ddiv (- X data !!! i)
             (cblas_ddot n x (drop (X_ind data !!! i * n) (F data)));
    Some (cblas_daxpy n q (drop (X_ind data !!! i * n) (F data)) grad 0)) grad.

Definition optimize_cg_single (curr X : arr) (X_ind : list nat) (nnz_this : nat)
    (F Fsum : arr) (k : nat) (l2_reg : Q) : option arr :=
  let data := {| F := F; Fsum := Fsum; X := X; X_ind := X_ind;
                 nnz_this := nnz_this; l2_reg := l2_reg |} in
  r ← minimize_nonneg_cg (take k curr) k calc_fun_single calc_grad_single None data
        (1 # 10) 200 100 (1 # 4) (1 # 100) 20 1 None 1 0;
  let curr := memcpy curr r.1 k in
  Some (for_loop k (fun i c => <[i := nonneg (c !!! i)]> c) curr).

(** The solve of row [ia] (lines 226-236): the minimizer works in place
    on the [k] entries at [A + ia*k]. *)
Definition cg_row (B Xr : arr) (Xr_indptr Xr_indices : list nat) (k : nat)
    (Bsum : arr) (npass : nat) (l2_reg : Q) (ia : nat)
    (s : arr * arr) : option (arr * arr) :=
  let '(A, buffer_arr) := s in
  let data := {| F := B; Fsum := Bsum;
                 X := drop (Xr_indptr !!! ia) Xr;
                 X_ind := drop (Xr_indptr !!! ia) Xr_indices;
                 nnz_this := Xr_indptr !!! (ia + 1) - Xr_indptr !!! ia;
                 l2_reg := l2_reg |} in
  r ← minimize_nonneg_cg (take k (drop (ia * k) A)) k
        calc_fun_single calc_grad_single None data
        (1 # 1000) npass 100 (1 # 4) (1 # 100) 20 1 (Some buffer_arr) 1 0;
  let A := for_loop k (fun i A => <[ia * k + i := r.1 !!! i]> A) A in
  let A := for_loop k (fun i A => <[ia * k + i := nonneg (A !!! (ia * k + i))]> A) A in
  Some (A, r.2).

Definition cg_iteration (A B Xr : arr) (Xr_indptr Xr_indices : list nat)
    (dimA k : nat) (Bsum : arr) (npass : nat) (l2_reg : Q) (ncores : Z)
    (buffer_arr : arr) : option (arr * arr) :=
  for_loopM dimA (fun ia s =>
    cg_row B Xr Xr_indptr Xr_indices k Bsum npass l2_reg ia s) (A, buffer_arr).

(** ** The driver (lines 259-336) *)

Section Run.

Variables (Xr : arr) (Xr_indptr Xr_indices : list nat).
Variables (Xc : arr) (Xc_indptr Xc_indices : list nat).
Variables (dimA dimB k : nat) (l2_reg l1_reg : Q) (use_cg : Z).
Variables (npass : nat) (ncores : Z).

(** [if (l1_reg > 0) for (kk < k) cnst_sum[kk] += l1_reg;] *)
Definition add_l1 (cnst_sum : arr) : arr :=
  if Qltb 0 l1_reg
  then for_loop k (fun kk c => <[kk := (c !!! kk + l1_reg)%Q]> c) cnst_sum
  else cnst_sum.

(** Lines 301-310: the update of [A] against [B].  The quotient
    [cnst_div] is formed for both solvers and consumed by
    [pgd_iteration] only: an undefined quotient is an error where it is
    consumed. *)
Definition update_A (s : loop_state) : option loop_state :=
  let cnst_div := ddiv 1 (1 + 2 * l2_reg * st_step_size s) in
  let cnst_sum := sum_by_cols (st_cnst_sum s) (st_B s) dimB k ncores in
  let cnst_sum := add_l1 cnst_sum in
  if negb (use_cg =? 0)%Z then
    r ← cg_iteration (st_A s) (st_B s) Xr Xr_indptr Xr_indices dimA k
          cnst_sum npass l2_reg ncores (st_buffer_arr s);
    Some {| st_A := r.1; st_B := st_B s;
            st_step_size := st_step_size s; st_neg_step_sz := st_neg_step_sz s;
            st_cnst_div := cnst_div;
            st_cnst_sum := cnst_sum; st_buffer_arr := r.2 |}
  else
    let cnst_sum := cblas_dscal k (st_neg_step_sz s) cnst_sum 0 in
    cd ← cnst_div;
    r ← pgd_iteration (st_A s) (st_B s) Xr Xr_indptr Xr_indices dimA k
          cd cnst_sum (st_step_size s) npass ncores (st_buffer_arr s);
    Some {| st_A := r.1; st_B := st_B s;
            st_step_size := st_step_size s; st_neg_step_sz := st_neg_step_sz s;
            st_cnst_div := cnst_div;
            st_cnst_sum := cnst_sum; st_buffer_arr := r.2 |}.

(** Lines 313-326: the update of [B] against [A]. *)
Definition update_B (s : loop_state) : option loop_state :=
  let cnst_div := st_cnst_div s in
  let cnst_sum := sum_by_cols (st_cnst_sum s) (st_A s) dimA k ncores in
  let cnst_sum := add_l1 cnst_sum in
  if negb (use_cg =? 0)%Z then
    r ← cg_iteration (st_B s) (st_A s) Xr Xc_indptr Xc_indices dimB k
          cnst_sum npass l2_reg ncores (st_buffer_arr s);
    Some {| st_A := st_A s; st_B := r.1;
            st_step_size := st_step_size s; st_neg_step_sz := st_neg_step_sz s;
            st_cnst_div := cnst_div;
            st_cnst_sum := cnst_sum; st_buffer_arr := r.2 |}
  else
    let cnst_sum := cblas_dscal k (st_neg_step_sz s) cnst_sum 0 in
    cd ← cnst_div;
    r ← pgd_iteration (st_B s) (st_A s) Xc Xc_indptr Xc_indices dimB k
          cd cnst_sum (st_step_size s) npass ncores (st_buffer_arr s);
    let step_size := (st_step_size s * (1 # 2))%Q in
    Some {| st_A := st_A s; st_B := r.1;
            st_step_size := step_size; st_neg_step_sz := (- step_size)%Q;
            st_cnst_div := cnst_div;
            st_cnst_sum := cnst_sum; st_buffer_arr := r.2 |}.

(** The body of the outer loop. *)
Definition fulliter (s : loop_state) : option loop_state :=
  s ← update_A s; update_B s.

(** The values of the loop variables before the first iteration
    (lines 294-296). *)
Definition loop_init (A B : arr) (step_size : Q) (cnst_sum buffer_arr : arr)
  : loop_state :=
  {| st_A := A; st_B := B;
     st_step_size := step_size; st_neg_step_sz := (- step_size)%Q;
     st_cnst_div := None;
     st_cnst_sum := cnst_sum; st_buffer_arr := buffer_arr |}.

(** [for (fulliter = 0; fulliter < numiter; fulliter++)] *)
Definition run_loop (numiter : nat) (s : loop_state) : option loop_state :=
  for_loopM numiter (fun fulliter_no s => fulliter s) s.

End Run.

(** The arguments are those of the source, in its order, followed by
    the outcomes of the allocations: of [cnst_sum], of the scratch buffer
    of the master thread, and of the scratch buffers of the other
    workers of the team that runs the parallel regions of lines 269-279
    and 332-335. *)
Definition run_poismf
    (A Xr : arr) (Xr_indptr Xr_indices : list nat)
    (B Xc : arr) (Xc_indptr Xc_indices : list nat)
    (dimA dimB k : nat) (l2_reg l1_reg : Q) (use_cg : Z) (step_size : Q)
    (numiter npass : nat) (ncores : Z)
    (m_cnst_sum m_master : malloc_outcome) (m_workers : list malloc_outcome)
  : option result :=
  let cnst_sum := malloc k m_cnst_sum in
  let size := if negb (use_cg =? 0)%Z then k * 4 else k in
  let buffer_arr := malloc size m_master in
  let buffers := malloc size <$> m_workers in
  let buffer_alloc_error := is_null buffer_arr || existsb is_null buffers in
  let h := heap_alloc 0 cnst_sum [] in
  let h := heap_alloc 1 buffer_arr h in
  let h := for_loop (length buffers)
             (fun t h => heap_alloc (2 + t) (buffers !!! t) h) h in
  let cleanup (h : heap) : heap :=
    let h := free 0 cnst_sum h in
    let h := free 1 buffer_arr h in
    for_loop (length buffers) (fun t h => free (2 + t) (buffers !!! t) h) h in
  if buffer_alloc_error || is_null cnst_sum then
    Some {| outA := A; outB := B; stderr := [alloc_error_message];
            live := cleanup h |}
  else
    cnst_sum ← cnst_sum;
    buffer_arr ← buffer_arr;
    s ← run_loop Xr Xr_indptr Xr_indices Xc Xc_indptr Xc_indices dimA dimB k
          l2_reg l1_reg use_cg npass ncores numiter
          (loop_init A B step_size cnst_sum buffer_arr);
    Some {| outA := st_A s; outB := st_B s; stderr := []; live := cleanup h |}.


(** ** Loops that update an array one entry at a time *)

Lemma for_loop_upd_length (n off : nat) (g : nat -> arr -> Q) (y : arr) :
  length (for_loop n (fun i y => <[off + i := g i y]> y) y) = length y.
Proof.
  induction n as [|m IH]; cbn [for_loop]; [reflexivity|].
  rewrite length_insert. exact IH.
Qed.

Lemma for_loop_upd_frame (n off : nat) (g : nat -> arr -> Q) (y : arr) (j : nat) :
  ~ (off <= j < off + n) ->
  for_loop n (fun i y => <[off + i := g i y]> y) y !!! j = y !!! j.
Proof.
  induction n as [|m IH]; cbn [for_loop]; intros Hj; [reflexivity|].
  rewrite list_lookup_total_insert_ne by lia. apply IH. lia.
Qed.

Lemma for_loop_upd_lookup (n off : nat) (h : nat -> Q -> Q) (y : arr) (j : nat) :
  for_loop n (fun i y => <[off + i := h i (y !!! (off + i))]> y) y !!! j =
  if decide (off <= j < off + n /\ j < length y) then h (j - off) (y !!! j) else y !!! j.
Proof.
  induction n as [|m IH]; cbn [for_loop].
  - destruct (decide _); [lia | reflexivity].
  - rewrite list_lookup_total_insert.
    rewrite (for_loop_upd_length m off (fun i y => h i (y !!! (off + i)))).
    destruct (decide (off + m = j /\ off + m < length y)) as [[Hij Hlen]|Hn].
    + subst j. rewrite decide_True by lia.
      replace (off + m - off) with m by lia. f_equal.
      apply (for_loop_upd_frame m off (fun i y => h i (y !!! (off + i)))). lia.
    + rewrite IH.
      destruct (decide (off <= j < off + m /\ j < length y));
        destruct (decide (off <= j < off + S m /\ j < length y));
        try reflexivity; lia.
Qed.

Lemma sumQ_S (n : nat) (f : nat -> Q) : sumQ (S n) f = (sumQ n f + f n)%Q.
Proof. reflexivity. Qed.

Lemma sumQ_ext (n : nat) (f g : nat -> Q) :
  (forall i, i < n -> (f i == g i)%Q) -> (sumQ n f == sumQ n g)%Q.
Proof.
  induction n as [|m IH]; intros H; [reflexivity|].
  rewrite !sumQ_S, IH, (H m) by (intros; try apply H; lia). reflexivity.
Qed.

(** ** Column sums *)

Lemma memset_zero_length (out : arr) (n : nat) : length (memset_zero out n) = length out.
Proof. apply (for_loop_upd_length n 0 (fun _ _ => 0%Q)). Qed.

Lemma memset_zero_lookup (out : arr) (n j : nat) :
  memset_zero out n !!! j = if decide (j < n /\ j < length out) then 0%Q else out !!! j.
Proof.
  pose proof (for_loop_upd_lookup n 0 (fun _ _ => 0%Q) out j) as E.
  cbn [Nat.add] in E. unfold memset_zero. rewrite E.
  destruct (decide (0 <= j < n /\ j < length out)); destruct (decide (j < n /\ j < length out));
    try reflexivity; lia.
Qed.

Lemma sum_by_cols_length (out M : arr) (nrow ncol : nat) (ncores : Z) :
  length (sum_by_cols out M nrow ncol ncores) = length out.
Proof.
  unfold sum_by_cols. induction nrow as [|r IH]; cbn [for_loop].
  - apply memset_zero_length.
  - rewrite (for_loop_upd_length ncol 0
      (fun col o => (o !!! col + M !!! (r * ncol + col)%nat)%Q)).
    exact IH.
Qed.

Lemma sum_by_cols_lookup (out M : arr) (nrow ncol : nat) (ncores : Z) (col : nat) :
  col < ncol -> col < length out ->
  sum_by_cols out M nrow ncol ncores !!! col = spec_colsum M nrow ncol col.
Proof.
  intros Hc Hl. unfold spec_colsum.
  induction nrow as [|r IH].
  - unfold sum_by_cols. cbn [for_loop].
    rewrite memset_zero_lookup, decide_True by lia. reflexivity.
  - rewrite sumQ_S, <- IH.
    pose proof (for_loop_upd_lookup ncol 0
      (fun c v => (v + M !!! (r * ncol + c)%nat)%Q)
      (sum_by_cols out M r ncol ncores) col) as E.
    cbn [Nat.add] in E. rewrite sum_by_cols_length, decide_True in E by lia.
    rewrite Nat.sub_0_r in E. exact E.
Qed.

Lemma arr_ext (u v : arr) :
  length u = length v -> (forall j, j < length u -> u !!! j = v !!! j) -> u = v.
Proof.
  intros Hl H. apply list_eq_same_length with (n := length u); [congruence | reflexivity |].
  intros i x y' Hi Hx Hy.
  pose proof (H i Hi) as E.
  rewrite (list_lookup_total_correct _ _ _ Hx), (list_lookup_total_correct _ _ _ Hy) in E.
  exact E.
Qed.

(** C9. [sum_by_cols] leaves in [out[col]], for every column of a dense
    [nrow × ncol] matrix, the sum over the rows of [M[row·ncol + col]];
    the output is zeroed first, so two calls that differ only in the
    prior contents of [out] agree on the [ncol] entries written. *)
Theorem C9_sum_by_cols_correct (out out' M : arr) (nrow ncol : nat) (ncores : Z) :
  length M = nrow * ncol -> ncol <= length out -> ncol <= length out' ->
  (forall col, col < ncol ->
     sum_by_cols out M nrow ncol ncores !!! col = spec_colsum M nrow ncol col) /\
  take ncol (sum_by_cols out' M nrow ncol ncores) =
  take ncol (sum_by_cols out M nrow ncol ncores).
Proof.
  intros _ Ho Ho'. split.
  - intros col Hc. apply sum_by_cols_lookup; lia.
  - apply arr_ext.
    + rewrite !length_take, !sum_by_cols_length. lia.
    + intros j Hj. rewrite length_take, sum_by_cols_length in Hj.
      rewrite !lookup_total_take_lt by lia.
      rewrite !sum_by_cols_lookup by lia. reflexivity.
Qed.

(** ** Loops with a partial body *)

Lemma for_loopM_inv {St : Type} (P : nat -> St -> Prop) (n : nat)
    (body : nat -> St -> option St) (s s' : St) :
  P 0 s ->
  (forall i t t', i < n -> P i t -> body i t = Some t' -> P (S i) t') ->
  for_loopM n body s = Some s' -> P n s'.
Proof.
  intros H0 Hstep. revert s'.
  induction n as [|m IH]; cbn [for_loopM]; intros s' H.
  - injection H as <-. exact H0.
  - destruct (for_loopM m body s) as [t|] eqn:E; [|discriminate].
    cbn in H. apply (Hstep m t); [lia | | exact H].
    apply IH; [|reflexivity]. intros i u u' Hi. apply Hstep. lia.
Qed.

Lemma for_loopM_defined {St : Type} (P : nat -> St -> Prop) (n : nat)
    (body : nat -> St -> option St) (s : St) :
  P 0 s ->
  (forall i t, i < n -> P i t -> exists t', body i t = Some t' /\ P (S i) t') ->
  exists s', for_loopM n body s = Some s' /\ P n s'.
Proof.
  intros H0 Hstep.
  induction n as [|m IH]; cbn [for_loopM].
  - exists s. split; [reflexivity | exact H0].
  - destruct IH as (t & Et & Pt); [intros i u Hi; apply Hstep; lia|].
    rewrite Et. cbn. apply Hstep; [lia | exact Pt].
Qed.

(** ** BLAS fallbacks *)

Lemma cblas_ddot_sum (n : nat) (x y : arr) :
  cblas_ddot n x y = sumQ n (fun i => (x !!! i * y !!! i)%Q).
Proof. reflexivity. Qed.

Lemma cblas_daxpy_length (n : nat) (a : Q) (x y : arr) (yo : nat) :
  length (cblas_daxpy n a x y yo) = length y.
Proof.
  apply (for_loop_upd_length n yo (fun i y => (y !!! (yo + i)%nat + a * x !!! i)%Q)).
Qed.

Lemma cblas_daxpy_lookup (n : nat) (a : Q) (x y : arr) (yo j : nat) :
  cblas_daxpy n a x y yo !!! j =
  if decide (yo <= j < yo + n /\ j < length y)
  then (y !!! j + a * x !!! (j - yo)%nat)%Q else y !!! j.
Proof. apply (for_loop_upd_lookup n yo (fun i v => (v + a * x !!! i)%Q)). Qed.

Lemma cblas_dscal_length (n : nat) (alpha : Q) (x : arr) (xo : nat) :
  length (cblas_dscal n alpha x xo) = length x.
Proof.
  apply (for_loop_upd_length n xo (fun i x => (x !!! (xo + i)%nat * alpha)%Q)).
Qed.

Lemma cblas_dscal_lookup (n : nat) (alpha : Q) (x : arr) (xo j : nat) :
  cblas_dscal n alpha x xo !!! j =
  if decide (xo <= j < xo + n /\ j < length x) then (x !!! j * alpha)%Q else x !!! j.
Proof. apply (for_loop_upd_lookup n xo (fun i v => (v * alpha)%Q)). Qed.

Lemma clip_length (n off : nat) (y : arr) :
  length (for_loop n (fun i A => <[off + i := nonneg (A !!! (off + i))]> A) y) = length y.
Proof. apply (for_loop_upd_length n off (fun i A => nonneg (A !!! (off + i)))). Qed.

Lemma clip_lookup (n off : nat) (y : arr) (j : nat) :
  for_loop n (fun i A => <[off + i := nonneg (A !!! (off + i))]> A) y !!! j =
  if decide (off <= j < off + n /\ j < length y) then nonneg (y !!! j) else y !!! j.
Proof. apply (for_loop_upd_lookup n off (fun i v => nonneg v)). Qed.

Lemma nonneg_ge0 (x : Q) : (0 <= nonneg x)%Q.
Proof.
  unfold nonneg. destruct (Qle_bool 0 x) eqn:E.
  - apply Qle_bool_iff. exact E.
  - apply Qle_refl.
Qed.

Lemma nonneg_id (x : Q) : (0 <= x)%Q -> nonneg x = x.
Proof.
  intros H. unfold nonneg. apply Qle_bool_iff in H. rewrite H. reflexivity.
Qed.

Lemma nonneg_proper (x y : Q) : (x == y)%Q -> (nonneg x == nonneg y)%Q.
Proof.
  intros E. unfold nonneg.
  destruct (Qle_bool 0 x) eqn:Ex, (Qle_bool 0 y) eqn:Ey; try assumption; try reflexivity.
  - apply Qle_bool_iff in Ex. rewrite E in Ex. apply Qle_bool_iff in Ex. congruence.
  - apply Qle_bool_iff in Ey. rewrite <- E in Ey. apply Qle_bool_iff in Ey. congruence.
Qed.

Lemma ddiv_Some (x y q : Q) : ddiv x y = Some q -> ~ (y == 0)%Q /\ q = (x / y)%Q.
Proof.
  unfold ddiv. destruct (Qeq_bool y 0) eqn:E; [discriminate|].
  intros [= <-]. split; [|reflexivity].
  intros H. apply Qeq_bool_iff in H. congruence.
Qed.

Lemma ddiv_defined (x y : Q) : ~ (y == 0)%Q -> ddiv x y = Some (x / y)%Q.
Proof.
  intros H. unfold ddiv. destruct (Qeq_bool y 0) eqn:E; [|reflexivity].
  apply Qeq_bool_iff in E. contradiction.
Qed.

Lemma ddiv_None (x y : Q) : ddiv x y = None <-> (y == 0)%Q.
Proof.
  unfold ddiv. destruct (Qeq_bool y 0) eqn:E.
  - apply Qeq_bool_iff in E. tauto.
  - split; [discriminate|]. intros H. apply Qeq_bool_iff in H. congruence.
Qed.

(** ** The formulas of the specification respect [==] *)

Lemma eqk_refl (k : nat) (u : arr) : eqk k u u.
Proof. intros j _. reflexivity. Qed.

Lemma eqk_sym (k : nat) (u v : arr) : eqk k u v -> eqk k v u.
Proof. intros H j Hj. symmetry. apply H, Hj. Qed.

Lemma eqk_trans (k : nat) (u v w : arr) : eqk k u v -> eqk k v w -> eqk k u w.
Proof. intros H1 H2 j Hj. rewrite (H1 j Hj). apply H2, Hj. Qed.

Lemma eqk_take (k : nat) (u : arr) : eqk k (take k u) u.
Proof. intros j Hj. rewrite lookup_total_take_lt by lia. reflexivity. Qed.

Lemma spec_pred_proper (k : nat) (c1 c2 F : arr) (index : nat) :
  eqk k c1 c2 -> (spec_pred k c1 F index == spec_pred k c2 F index)%Q.
Proof.
  intros H. unfold spec_pred. apply sumQ_ext. intros j Hj.
  rewrite (H j Hj). reflexivity.
Qed.

Lemma spec_grad_proper (k : nat) (c1 c2 F X : arr) (Xind : list nat) (nnz j : nat) :
  eqk k c1 c2 -> (spec_grad k c1 F X Xind nnz j == spec_grad k c2 F X Xind nnz j)%Q.
Proof.
  intros H. unfold spec_grad. apply sumQ_ext. intros i Hi.
  rewrite (spec_pred_proper k c1 c2 F (Xind !!! i) H). reflexivity.
Qed.

Lemma spec_pgd_pass_length (k : nat) (F : arr) (dimF : nat) (X : arr) (Xind : list nat)
    (nnz : nat) (step_size l1 l2_reg : Q) (curr : arr) :
  length (spec_pgd_pass k F dimF X Xind nnz step_size l1 l2_reg curr) = k.
Proof. unfold spec_pgd_pass. rewrite length_fmap, length_seq. reflexivity. Qed.

Lemma spec_pgd_pass_lookup (k : nat) (F : arr) (dimF : nat) (X : arr) (Xind : list nat)
    (nnz : nat) (step_size l1 l2_reg : Q) (curr : arr) (j : nat) :
  j < k ->
  spec_pgd_pass k F dimF X Xind nnz step_size l1 l2_reg curr !!! j =
  nonneg ((curr !!! j + step_size * spec_grad k curr F X Xind nnz j
           + - step_size * (spec_colsum F dimF k j + l1))
          * (1 / (1 + 2 * l2_reg * step_size)))%Q.
Proof.
  intros Hj. unfold spec_pgd_pass.
  rewrite (@list_lookup_total_fmap nat Q _ _ _ (seq 0 k) j)
    by (rewrite length_seq; exact Hj).
  rewrite lookup_total_seq_lt by exact Hj. reflexivity.
Qed.

Lemma spec_pgd_pass_proper (k : nat) (F : arr) (dimF : nat) (X : arr) (Xind : list nat)
    (nnz : nat) (step_size l1 l2_reg : Q) (c1 c2 : arr) :
  eqk k c1 c2 ->
  eqk k (spec_pgd_pass k F dimF X Xind nnz step_size l1 l2_reg c1)
        (spec_pgd_pass k F dimF X Xind nnz step_size l1 l2_reg c2).
Proof.
  intros H j Hj. rewrite !spec_pgd_pass_lookup by exact Hj.
  apply nonneg_proper.
  rewrite (H j Hj), (spec_grad_proper k c1 c2 F X Xind nnz j H). reflexivity.
Qed.

Lemma iter_pass_proper (n k : nat) (f : arr -> arr) (c1 c2 : arr) :
  (forall u v, eqk k u v -> eqk k (f u) (f v)) ->
  eqk k c1 c2 -> eqk k (Nat.iter n f c1) (Nat.iter n f c2).
Proof.
  intros Hf H. induction n as [|m IH]; cbn [Nat.iter nat_rect]; [exact H|].
  apply Hf, IH.
Qed.

(** ** The gradient of the likelihood term *)

Lemma ddot_drop_l (k : nat) (curr F : arr) (index : nat) :
  (cblas_ddot k (drop (index * k) F) curr == spec_pred k curr F index)%Q.
Proof.
  unfold cblas_ddot, spec_pred. apply sumQ_ext. intros j Hj.
  rewrite lookup_total_drop. ring.
Qed.

Lemma ddot_drop_r (k : nat) (curr F : arr) (index : nat) :
  (cblas_ddot k curr (drop (index * k) F) == spec_pred k curr F index)%Q.
Proof.
  unfold cblas_ddot, spec_pred. apply sumQ_ext. intros j Hj.
  rewrite lookup_total_drop. reflexivity.
Qed.

Lemma calc_grad_pgd_inv (out curr F X : arr) (Xind : list nat) (nnz k : nat) (out' : arr) :
  k <= length out ->
  calc_grad_pgd out curr F X Xind nnz k = Some out' ->
  length out' = length out /\
  (forall i, i < nnz -> ~ (spec_pred k curr F (Xind !!! i) == 0)%Q) /\
  (forall j, j < k -> (out' !!! j == spec_grad k curr F X Xind nnz j)%Q).
Proof.
  intros Hk. unfold calc_grad_pgd.
  apply (for_loopM_inv (fun n o =>
    length o = length out /\
    (forall i, i < n -> ~ (spec_pred k curr F (Xind !!! i) == 0)%Q) /\
    (forall j, j < k -> (o !!! j == spec_grad k curr F X Xind n j)%Q))).
  - split; [apply memset_zero_length|]. split; [intros i Hi; lia|].
    intros j Hj. rewrite memset_zero_lookup, decide_True by lia. reflexivity.
  - intros i o o' Hi (Hlen & Hnz & Hval) Hbody.
    destruct (ddiv _ _) as [q|] eqn:Eq; [|discriminate].
    cbn in Hbody. injection Hbody as <-.
    apply ddiv_Some in Eq. destruct Eq as [Hne ->].
    rewrite ddot_drop_l in Hne.
    split; [rewrite cblas_daxpy_length; exact Hlen|]. split.
    + intros i' Hi'. destruct (decide (i' = i)) as [->|]; [exact Hne|].
      apply Hnz. lia.
    + intros j Hj. rewrite cblas_daxpy_lookup, decide_True by lia.
      unfold spec_grad. rewrite sumQ_S. fold (spec_grad k curr F X Xind i j).
      rewrite (Hval j Hj), ddot_drop_l, lookup_total_drop, Nat.sub_0_r.
      reflexivity.
Qed.

Lemma calc_grad_pgd_defined (out curr F X : arr) (Xind : list nat) (nnz k : nat) :
  (forall i, i < nnz -> ~ (spec_pred k curr F (Xind !!! i) == 0)%Q) ->
  exists out', calc_grad_pgd out curr F X Xind nnz k = Some out'.
Proof.
  intros H. unfold calc_grad_pgd.
  destruct (for_loopM_defined (fun _ _ => True) nnz
    (fun i o =>
       q ← ddiv (X !!! i) (cblas_ddot k (drop (Xind !!! i * k) F) curr);
       Some (cblas_daxpy k q (drop (Xind !!! i * k) F) o 0))
    (memset_zero out k)) as (o & Eo & _); [exact I | | eauto].
  intros i o Hi _. rewrite ddiv_defined.
  - cbn. eauto.
  - rewrite ddot_drop_l. apply H, Hi.
Qed.

(** ** One pass, one row, one matrix of the proximal-gradient solver *)

Lemma pgd_pass_shape (B Xr : arr) (Xr_indptr Xr_indices : list nat) (k : nat)
    (cnst_div : Q) (cnst_sum : arr) (step_size : Q) (ia nnz : nat)
    (A buf A' buf' : arr) :
  k <= length buf -> ia * k + k <= length A ->
  pgd_pass B Xr Xr_indptr Xr_indices k cnst_div cnst_sum step_size ia nnz (A, buf)
    = Some (A', buf') ->
  length A' = length A /\ length buf' = length buf /\
  (forall j, ~ (ia * k <= j < ia * k + k) -> A' !!! j = A !!! j) /\
  (forall j, ia * k <= j < ia * k + k -> (0 <= A' !!! j)%Q).
Proof.
  intros Hbuf HA. unfold pgd_pass.
  destruct (calc_grad_pgd _ _ _ _ _ _ _) as [g|] eqn:Eg; [|discriminate].
  cbn. intros [= <- <-].
  apply calc_grad_pgd_inv in Eg; [|exact Hbuf].
  destruct Eg as (Hlg & _ & Hg).
  split; [rewrite clip_length, cblas_dscal_length, !cblas_daxpy_length; reflexivity|].
  split; [exact Hlg|]. split.
  - intros j Hj.
    rewrite clip_lookup, decide_False by lia.
    rewrite cblas_dscal_lookup, decide_False by lia.
    rewrite !cblas_daxpy_lookup, !decide_False by lia. reflexivity.
  - intros j Hj. rewrite clip_lookup, decide_True.
    + apply nonneg_ge0.
    + rewrite cblas_dscal_length, !cblas_daxpy_length. lia.
Qed.

Lemma pgd_pass_spec (B Xr : arr) (Xr_indptr Xr_indices : list nat) (k : nat)
    (cnst_div : Q) (cnst_sum : arr) (step_size : Q) (ia nnz : nat)
    (A buf A' buf' : arr) (dimF : nat) (l1 l2 : Q) :
  k <= length buf -> ia * k + k <= length A ->
  (cnst_div == 1 / (1 + 2 * l2 * step_size))%Q ->
  (forall j, j < k ->
     (cnst_sum !!! j == - step_size * (spec_colsum B dimF k j + l1))%Q) ->
  pgd_pass B Xr Xr_indptr Xr_indices k cnst_div cnst_sum step_size ia nnz (A, buf)
    = Some (A', buf') ->
  eqk k (drop (ia * k) A')
        (spec_pgd_pass k B dimF (drop (Xr_indptr !!! ia) Xr)
           (drop (Xr_indptr !!! ia) Xr_indices)
           nnz step_size l1 l2
           (drop (ia * k) A)).
Proof.
  intros Hbuf HA Hcd Hcs. unfold pgd_pass.
  destruct (calc_grad_pgd _ _ _ _ _ _ _) as [g|] eqn:Eg; [|discriminate].
  cbn. intros [= <- <-].
  apply calc_grad_pgd_inv in Eg; [|exact Hbuf].
  destruct Eg as (Hlg & _ & Hg).
  intros j Hj. rewrite lookup_total_drop, spec_pgd_pass_lookup by exact Hj.
  rewrite clip_lookup, decide_True
    by (rewrite cblas_dscal_length, !cblas_daxpy_length; lia).
  apply nonneg_proper.
  rewrite cblas_dscal_lookup, decide_True by (rewrite !cblas_daxpy_length; lia).
  rewrite cblas_daxpy_lookup, decide_True by (rewrite !cblas_daxpy_length; lia).
  rewrite cblas_daxpy_lookup, decide_True by lia.
  replace (ia * k + j - ia * k) with j by lia.
  rewrite (Hg j Hj), (Hcs j Hj), Hcd, lookup_total_drop. ring.
Qed.

(** The [npass] passes on row [ia]. *)
Lemma pgd_row_shape (B Xr : arr) (Xr_indptr Xr_indices : list nat) (k : nat)
    (cnst_div : Q) (cnst_sum : arr) (step_size : Q) (npass ia nnz : nat)
    (A buf A' buf' : arr) :
  k <= length buf -> ia * k + k <= length A ->
  for_loopM npass (fun p s =>
    pgd_pass B Xr Xr_indptr Xr_indices k cnst_div cnst_sum step_size ia nnz s) (A, buf)
    = Some (A', buf') ->
  length A' = length A /\ length buf' = length buf /\
  (forall j, ~ (ia * k <= j < ia * k + k) -> A' !!! j = A !!! j) /\
  (1 <= npass -> forall j, ia * k <= j < ia * k + k -> (0 <= A' !!! j)%Q) /\
  (npass = 0 -> A' = A).
Proof.
  intros Hbuf HA H.
  apply (for_loopM_inv (fun p (s : arr * arr) =>
    length s.1 = length A /\ length s.2 = length buf /\
    (forall j, ~ (ia * k <= j < ia * k + k) -> s.1 !!! j = A !!! j) /\
    (1 <= p -> forall j, ia * k <= j < ia * k + k -> (0 <= s.1 !!! j)%Q) /\
    (p = 0 -> s.1 = A))) in H; [exact H | |].
  - cbn. repeat split; try reflexivity. lia.
  - intros p [Ap bp] [Aq bq] Hp (HlA & Hlb & Hfr & _ & _) Hbody. cbn in *.
    apply pgd_pass_shape in Hbody; [|lia|lia].
    destruct Hbody as (HlA' & Hlb' & Hfr' & Hnn).
    repeat split; try congruence; try lia.
    + intros j Hj. rewrite Hfr' by exact Hj. apply Hfr, Hj.
    + intros _. exact Hnn.
Qed.

Lemma pgd_row_spec (B Xr : arr) (Xr_indptr Xr_indices : list nat) (k : nat)
    (cnst_div : Q) (cnst_sum : arr) (step_size : Q) (npass ia nnz : nat)
    (A buf A' buf' : arr) (dimF : nat) (l1 l2 : Q) :
  k <= length buf -> ia * k + k <= length A ->
  (cnst_div == 1 / (1 + 2 * l2 * step_size))%Q ->
  (forall j, j < k ->
     (cnst_sum !!! j == - step_size * (spec_colsum B dimF k j + l1))%Q) ->
  for_loopM npass (fun p s =>
    pgd_pass B Xr Xr_indptr Xr_indices k cnst_div cnst_sum step_size ia nnz s) (A, buf)
    = Some (A', buf') ->
  eqk k (drop (ia * k) A')
        (Nat.iter npass
           (spec_pgd_pass k B dimF (drop (Xr_indptr !!! ia) Xr)
              (drop (Xr_indptr !!! ia) Xr_indices)
              nnz step_size l1 l2)
           (drop (ia * k) A)).
Proof.
  intros Hbuf HA Hcd Hcs H.
  apply (for_loopM_inv (fun p (s : arr * arr) =>
    length s.1 = length A /\ length s.2 = length buf /\
    eqk k (drop (ia * k) s.1)
        (Nat.iter p
           (spec_pgd_pass k B dimF (drop (Xr_indptr !!! ia) Xr)
              (drop (Xr_indptr !!! ia) Xr_indices)
              nnz step_size l1 l2)
           (drop (ia * k) A)))) in H; [apply H | |].
  - cbn. split; [reflexivity|]. split; [reflexivity|]. apply eqk_refl.
  - intros p [Ap bp] [Aq bq] Hp (HlA & Hlb & Heq) Hbody. cbn in *.
    pose proof Hbody as Hsh.
    apply pgd_pass_shape in Hsh; [|lia|lia].
    destruct Hsh as (HlA' & Hlb' & _).
    apply (pgd_pass_spec _ _ _ _ _ _ _ _ _ _ _ _ _ _ dimF l1 l2) in Hbody;
      [|lia|lia|exact Hcd|exact Hcs].
    split; [congruence|]. split; [congruence|].
    eapply eqk_trans; [exact Hbody|].
    apply spec_pgd_pass_proper, Heq.
Qed.

(** All rows. *)
Lemma row_bound (i n k : nat) : i < n -> i * k + k <= n * k.
Proof. intros H. nia. Qed.

Lemma pgd_iteration_shape (A B Xr : arr) (Xr_indptr Xr_indices : list nat)
    (dimA k : nat) (cnst_div : Q) (cnst_sum : arr) (step_size : Q)
    (npass : nat) (ncores : Z) (buf A' buf' : arr) :
  k <= length buf -> dimA * k <= length A ->
  pgd_iteration A B Xr Xr_indptr Xr_indices dimA k cnst_div cnst_sum step_size
    npass ncores buf = Some (A', buf') ->
  length A' = length A /\ length buf' = length buf /\
  (forall j, dimA * k <= j -> A' !!! j = A !!! j) /\
  (1 <= npass -> forall j, j < dimA * k -> (0 <= A' !!! j)%Q) /\
  (npass = 0 -> A' = A).
Proof.
  intros Hbuf HA H. unfold pgd_iteration in H.
  apply (for_loopM_inv (fun i (s : arr * arr) =>
    length s.1 = length A /\ length s.2 = length buf /\
    (forall j, i * k <= j -> s.1 !!! j = A !!! j) /\
    (1 <= npass -> forall j, j < i * k -> (0 <= s.1 !!! j)%Q) /\
    (npass = 0 -> s.1 = A))) in H; [exact H | |].
  - cbn. split; [reflexivity|]. split; [reflexivity|]. split; [reflexivity|].
    split; [intros; lia | reflexivity].
  - intros i [Ai bi] [Aq bq] Hi (HlA & Hlb & Hfr & Hnn & H0) Hbody. cbn in *.
    pose proof (row_bound i dimA k Hi) as Hrow.
    apply pgd_row_shape in Hbody; [|lia|lia].
    destruct Hbody as (HlA' & Hlb' & Hfr' & Hnn' & H0').
    split; [congruence|]. split; [congruence|]. split; [|split].
    + intros j Hj. rewrite Hfr' by lia. apply Hfr. lia.
    + intros Hp j Hj. destruct (decide (j < i * k)) as [Hlt|Hge].
      * rewrite Hfr' by lia. apply Hnn; assumption.
      * apply Hnn'; [exact Hp | lia].
    + intros Hp. rewrite (H0' Hp). apply H0, Hp.
Qed.

Lemma pgd_iteration_spec (A B Xr : arr) (Xr_indptr Xr_indices : list nat)
    (dimA k : nat) (cnst_div : Q) (cnst_sum : arr) (step_size : Q)
    (npass : nat) (ncores : Z) (buf A' buf' : arr) (dimF : nat) (l1 l2 : Q) :
  k <= length buf -> dimA * k <= length A ->
  (cnst_div == 1 / (1 + 2 * l2 * step_size))%Q ->
  (forall j, j < k ->
     (cnst_sum !!! j == - step_size * (spec_colsum B dimF k j + l1))%Q) ->
  pgd_iteration A B Xr Xr_indptr Xr_indices dimA k cnst_div cnst_sum step_size
    npass ncores buf = Some (A', buf') ->
  forall ia, ia < dimA ->
    eqk k (drop (ia * k) A')
        (Nat.iter npass
           (spec_pgd_pass k B dimF (drop (Xr_indptr !!! ia) Xr)
              (drop (Xr_indptr !!! ia) Xr_indices)
              (Xr_indptr !!! (ia + 1) - Xr_indptr !!! ia) step_size l1 l2)
           (drop (ia * k) A)).
Proof.
  intros Hbuf HA Hcd Hcs H. unfold pgd_iteration in H.
  apply (for_loopM_inv (fun i (s : arr * arr) =>
    length s.1 = length A /\ length s.2 = length buf /\
    (forall j, i * k <= j -> s.1 !!! j = A !!! j) /\
    (forall ia, ia < i ->
       eqk k (drop (ia * k) s.1)
        (Nat.iter npass
           (spec_pgd_pass k B dimF (drop (Xr_indptr !!! ia) Xr)
              (drop (Xr_indptr !!! ia) Xr_indices)
              (Xr_indptr !!! (ia + 1) - Xr_indptr !!! ia) step_size l1 l2)
           (drop (ia * k) A))))) in H; [apply H | |].
  - cbn. split; [reflexivity|]. split; [reflexivity|]. split; [reflexivity|].
    intros; lia.
  - intros i [Ai bi] [Aq bq] Hi (HlA & Hlb & Hfr & Hrows) Hbody. cbn in *.
    pose proof (row_bound i dimA k Hi) as Hrow.
    pose proof Hbody as Hsh.
    apply pgd_row_shape in Hsh; [|lia|lia].
    destruct Hsh as (HlA' & Hlb' & Hfr' & _).
    apply (pgd_row_spec _ _ _ _ _ _ _ _ _ _ _ _ _ _ _ dimF l1 l2) in Hbody;
      [|lia|lia|exact Hcd|exact Hcs].
    split; [congruence|]. split; [congruence|]. split.
    + intros j Hj. rewrite Hfr' by lia. apply Hfr. lia.
    + intros ia Hia. destruct (decide (ia = i)) as [->|Hne].
      * eapply eqk_trans; [exact Hbody|].
        apply iter_pass_proper; [intros u v; apply spec_pgd_pass_proper|].
        intros j Hj. rewrite !lookup_total_drop, Hfr by lia. reflexivity.
      * assert (ia < i) as Hlt by lia.
        pose proof (row_bound ia i k Hlt) as Hrow'.
        eapply eqk_trans; [|apply Hrows, Hlt].
        intros j Hj. rewrite !lookup_total_drop, Hfr' by lia. reflexivity.
Qed.

(** ** One row, all rows of the conjugate-gradient solver *)

Lemma cg_row_shape (B Xr : arr) (Xr_indptr Xr_indices : list nat) (k : nat)
    (Bsum : arr) (npass : nat) (l2 : Q) (ia : nat) (A buf A' buf' : arr) :
  ia * k + k <= length A ->
  cg_row B Xr Xr_indptr Xr_indices k Bsum npass l2 ia (A, buf) = Some (A', buf') ->
  length A' = length A /\
  (forall j, ~ (ia * k <= j < ia * k + k) -> A' !!! j = A !!! j) /\
  (forall j, ia * k <= j < ia * k + k -> (0 <= A' !!! j)%Q).
Proof.
  intros HA. unfold cg_row.
  destruct (minimize_nonneg_cg _ _ _ _ _ _ _ _ _ _ _ _ _ _ _ _) as [r|]; [|discriminate].
  cbn. intros [= <- <-].
  pose proof (for_loop_upd_length k (ia * k) (fun i _ => r.1 !!! i) A) as Hl.
  split; [rewrite clip_length; exact Hl|]. split.
  - intros j Hj. rewrite clip_lookup, decide_False by lia.
    apply (for_loop_upd_frame k (ia * k) (fun i _ => r.1 !!! i)). exact Hj.
  - intros j Hj. rewrite clip_lookup, decide_True by (rewrite Hl; lia).
    apply nonneg_ge0.
Qed.

Lemma cg_iteration_shape (A B Xr : arr) (Xr_indptr Xr_indices : list nat)
    (dimA k : nat) (Bsum : arr) (npass : nat) (l2 : Q) (ncores : Z)
    (buf A' buf' : arr) :
  dimA * k <= length A ->
  cg_iteration A B Xr Xr_indptr Xr_indices dimA k Bsum npass l2 ncores buf
    = Some (A', buf') ->
  length A' = length A /\
  (forall j, dimA * k <= j -> A' !!! j = A !!! j) /\
  (forall j, j < dimA * k -> (0 <= A' !!! j)%Q).
Proof.
  intros HA H. unfold cg_iteration in H.
  apply (for_loopM_inv (fun i (s : arr * arr) =>
    length s.1 = length A /\
    (forall j, i * k <= j -> s.1 !!! j = A !!! j) /\
    (forall j, j < i * k -> (0 <= s.1 !!! j)%Q))) in H; [exact H | |].
  - cbn. split; [reflexivity|]. split; [reflexivity|]. intros; lia.
  - intros i [Ai bi] [Aq bq] Hi (HlA & Hfr & Hnn) Hbody. cbn in *.
    pose proof (row_bound i dimA k Hi) as Hrow.
    apply cg_row_shape in Hbody; [|lia].
    destruct Hbody as (HlA' & Hfr' & Hnn').
    split; [congruence|]. split.
    + intros j Hj. rewrite Hfr' by lia. apply Hfr. lia.
    + intros j Hj. destruct (decide (j < i * k)) as [Hlt|Hge].
      * rewrite Hfr' by lia. apply Hnn; assumption.
      * apply Hnn'. lia.
Qed.

(** ** The regularization constants *)

Lemma add_l1_length (k : nat) (l1 : Q) (c : arr) : length (add_l1 k l1 c) = length c.
Proof.
  unfold add_l1. destruct (Qltb 0 l1); [|reflexivity].
  apply (for_loop_upd_length k 0 (fun kk c => (c !!! kk + l1)%Q)).
Qed.

Lemma add_l1_lookup (k : nat) (l1 : Q) (c : arr) (j : nat) :
  j < k -> j < length c ->
  (add_l1 k l1 c !!! j == c !!! j + l1_applied l1)%Q.
Proof.
  intros Hj Hl. unfold add_l1, l1_applied. destruct (Qltb 0 l1).
  - pose proof (for_loop_upd_lookup k 0 (fun _ v => (v + l1)%Q) c j) as E.
    cbn [Nat.add] in E. rewrite E, decide_True by lia. reflexivity.
  - ring.
Qed.

Lemma pgd_cnst_sum (k : nat) (l1 step neg_step : Q) (c M : arr) (nrow : nat)
    (ncores : Z) (j : nat) :
  j < k -> k <= length c -> (neg_step == - step)%Q ->
  (cblas_dscal k neg_step (add_l1 k l1 (sum_by_cols c M nrow k ncores)) 0 !!! j
   == - step * (spec_colsum M nrow k j + l1_applied l1))%Q.
Proof.
  intros Hj Hk Hneg.
  rewrite cblas_dscal_lookup, decide_True
    by (rewrite add_l1_length, sum_by_cols_length; lia).
  rewrite add_l1_lookup by (rewrite ?sum_by_cols_length; lia).
  rewrite sum_by_cols_lookup by lia. rewrite Hneg. ring.
Qed.

(** ** The two half-iterations *)

Lemma all_nonneg_lookup (M : arr) :
  all_nonneg M <-> forall j, j < length M -> (0 <= M !!! j)%Q.
Proof.
  unfold all_nonneg. rewrite Forall_lookup. split.
  - intros H j Hj. apply (H j). apply list_lookup_lookup_total_lt, Hj.
  - intros H j x Hx. pose proof (lookup_lt_Some _ _ _ Hx) as Hj.
    rewrite <- (list_lookup_total_correct _ _ _ Hx). apply H, Hj.
Qed.

Lemma update_A_shape (Xr : arr) (Xr_indptr Xr_indices : list nat)
    (dimA dimB k : nat) (l2 l1 : Q) (use_cg : Z) (npass : nat) (ncores : Z)
    (s s' : loop_state) :
  wf_state dimA dimB k use_cg s ->
  update_A Xr Xr_indptr Xr_indices dimA dimB k l2 l1 use_cg npass ncores s = Some s' ->
  wf_state dimA dimB k use_cg s' /\
  st_B s' = st_B s /\ st_step_size s' = st_step_size s /\
  st_cnst_div s' = ddiv 1 (1 + 2 * l2 * st_step_size s) /\
  (use_cg <> 0%Z \/ 1 <= npass -> all_nonneg (st_A s')) /\
  (use_cg = 0%Z -> npass = 0 -> st_A s' = st_A s).
Proof.
  intros (HA & HB & Hcs & Hbuf & Hneg). unfold update_A.
  destruct (Z.eqb_spec use_cg 0) as [Hcg|Hcg]; cbn [negb].
  - destruct (ddiv 1 _) as [cd|] eqn:Ecd; [|discriminate]. cbn.
    destruct (pgd_iteration _ _ _ _ _ _ _ _ _ _ _ _ _) as [[A' buf']|] eqn:E;
      [|discriminate].
    cbn. intros [= <-]. cbn.
    apply pgd_iteration_shape in E; [|auto|lia].
    destruct E as (HlA & Hlb & _ & Hnn & H0).
    split; [|split; [reflexivity|split; [reflexivity|split; [reflexivity|split]]]].
    + unfold wf_state. cbn.
      rewrite cblas_dscal_length, add_l1_length, sum_by_cols_length.
      split; [congruence|]. split; [assumption|]. split; [assumption|].
      split; [intros _; rewrite Hlb; auto | assumption].
    + intros [Hc|Hp]; [contradiction|].
      apply all_nonneg_lookup. intros j Hj. apply Hnn; [exact Hp | lia].
    + intros _ Hp. apply H0, Hp.
  - destruct (cg_iteration _ _ _ _ _ _ _ _ _ _ _ _) as [[A' buf']|] eqn:E;
      [|discriminate].
    cbn. intros [= <-]. cbn.
    apply cg_iteration_shape in E; [|lia].
    destruct E as (HlA & _ & Hnn).
    split; [|split; [reflexivity|split; [reflexivity|split; [reflexivity|split]]]].
    + unfold wf_state. cbn. rewrite add_l1_length, sum_by_cols_length.
      split; [congruence|]. split; [assumption|]. split; [assumption|].
      split; [intros Hc; contradiction | assumption].
    + intros _. apply all_nonneg_lookup. intros j Hj. apply Hnn. lia.
    + intros Hc. contradiction.
Qed.

Lemma update_B_shape (Xr Xc : arr) (Xc_indptr Xc_indices : list nat)
    (dimA dimB k : nat) (l2 l1 : Q) (use_cg : Z) (npass : nat) (ncores : Z)
    (s s' : loop_state) :
  wf_state dimA dimB k use_cg s ->
  update_B Xr Xc Xc_indptr Xc_indices dimA dimB k l2 l1 use_cg npass ncores s = Some s' ->
  wf_state dimA dimB k use_cg s' /\
  st_A s' = st_A s /\
  st_step_size s' =
    (if (use_cg =? 0)%Z then (st_step_size s * (1 # 2))%Q else st_step_size s) /\
  (use_cg <> 0%Z \/ 1 <= npass -> all_nonneg (st_B s')) /\
  (use_cg = 0%Z -> npass = 0 -> st_B s' = st_B s).
Proof.
  intros (HA & HB & Hcs & Hbuf & Hneg). unfold update_B.
  destruct (Z.eqb_spec use_cg 0) as [Hcg|Hcg]; cbn [negb].
  - destruct (st_cnst_div s) as [cd|] eqn:Ecd; [|discriminate]. cbn.
    destruct (pgd_iteration _ _ _ _ _ _ _ _ _ _ _ _ _) as [[B' buf']|] eqn:E;
      [|discriminate].
    cbn. intros [= <-]. cbn.
    apply pgd_iteration_shape in E; [|auto|lia].
    destruct E as (HlB & Hlb & _ & Hnn & H0).
    split; [|split; [reflexivity|split; [reflexivity|split]]].
    + unfold wf_state. cbn.
      rewrite cblas_dscal_length, add_l1_length, sum_by_cols_length.
      split; [assumption|]. split; [congruence|]. split; [assumption|].
      split; [intros _; rewrite Hlb; auto | reflexivity].
    + intros [Hc|Hp]; [contradiction|].
      apply all_nonneg_lookup. intros j Hj. apply Hnn; [exact Hp | lia].
    + intros _ Hp. apply H0, Hp.
  - destruct (cg_iteration _ _ _ _ _ _ _ _ _ _ _ _) as [[B' buf']|] eqn:E;
      [|discriminate].
    cbn. intros [= <-]. cbn.
    apply cg_iteration_shape in E; [|lia].
    destruct E as (HlB & _ & Hnn).
    split; [|split; [reflexivity|split; [reflexivity|split]]].
    + unfold wf_state. cbn. rewrite add_l1_length, sum_by_cols_length.
      split; [assumption|]. split; [congruence|]. split; [assumption|].
      split; [intros Hc; contradiction | assumption].
    + intros _. apply all_nonneg_lookup. intros j Hj. apply Hnn. lia.
    + intros Hc. contradiction.
Qed.

Lemma ddiv_one_spec (y cd : Q) : ddiv 1 y = Some cd -> (cd == 1 / y)%Q.
Proof. intros H. apply ddiv_Some in H. destruct H as [_ ->]. reflexivity. Qed.

Lemma update_A_pgd_spec (Xr : arr) (Xr_indptr Xr_indices : list nat)
    (dimA dimB k : nat) (l2 l1 : Q) (npass : nat) (ncores : Z)
    (s s' : loop_state) :
  wf_state dimA dimB k 0 s ->
  update_A Xr Xr_indptr Xr_indices dimA dimB k l2 l1 0 npass ncores s = Some s' ->
  forall ia, ia < dimA ->
    eqk k (drop (ia * k) (st_A s'))
      (Nat.iter npass
         (spec_pgd_pass k (st_B s) dimB (drop (Xr_indptr !!! ia) Xr)
            (drop (Xr_indptr !!! ia) Xr_indices)
            (Xr_indptr !!! (ia + 1) - Xr_indptr !!! ia)
            (st_step_size s) (l1_applied l1) l2)
         (drop (ia * k) (st_A s))).
Proof.
  intros (HA & HB & Hcs & Hbuf & Hneg). unfold update_A. cbn [Z.eqb negb].
  destruct (ddiv 1 _) as [cd|] eqn:Ecd; [|discriminate]. cbn.
  destruct (pgd_iteration _ _ _ _ _ _ _ _ _ _ _ _ _) as [[A' buf']|] eqn:E;
    [|discriminate].
  cbn. intros [= <-]. cbn. intros ia Hia.
  refine (pgd_iteration_spec _ _ _ _ _ _ _ _ _ _ _ _ _ _ _ dimB (l1_applied l1) l2
            _ _ _ _ E ia Hia).
  - auto.
  - lia.
  - apply ddiv_one_spec, Ecd.
  - intros j Hj. apply pgd_cnst_sum; [exact Hj | exact Hcs |].
    rewrite Hneg. reflexivity.
Qed.

Lemma update_B_pgd_spec (Xr Xc : arr) (Xc_indptr Xc_indices : list nat)
    (dimA dimB k : nat) (l2 l1 : Q) (npass : nat) (ncores : Z)
    (s s' : loop_state) :
  wf_state dimA dimB k 0 s ->
  st_cnst_div s = ddiv 1 (1 + 2 * l2 * st_step_size s) ->
  update_B Xr Xc Xc_indptr Xc_indices dimA dimB k l2 l1 0 npass ncores s = Some s' ->
  forall ia, ia < dimB ->
    eqk k (drop (ia * k) (st_B s'))
      (Nat.iter npass
         (spec_pgd_pass k (st_A s) dimA (drop (Xc_indptr !!! ia) Xc)
            (drop (Xc_indptr !!! ia) Xc_indices)
            (Xc_indptr !!! (ia + 1) - Xc_indptr !!! ia)
            (st_step_size s) (l1_applied l1) l2)
         (drop (ia * k) (st_B s))).
Proof.
  intros (HA & HB & Hcs & Hbuf & Hneg) Hdiv. unfold update_B. cbn [Z.eqb negb].
  destruct (st_cnst_div s) as [cd|] eqn:Ecd; [|discriminate]. cbn.
  destruct (pgd_iteration _ _ _ _ _ _ _ _ _ _ _ _ _) as [[B' buf']|] eqn:E;
    [|discriminate].
  cbn. intros [= <-]. cbn. intros ia Hia.
  refine (pgd_iteration_spec _ _ _ _ _ _ _ _ _ _ _ _ _ _ _ dimA (l1_applied l1) l2
            _ _ _ _ E ia Hia).
  - auto.
  - lia.
  - apply ddiv_one_spec. symmetry. exact Hdiv.
  - intros j Hj. apply pgd_cnst_sum; [exact Hj | exact Hcs |].
    rewrite Hneg. reflexivity.
Qed.

(** ** The outer loop *)

Lemma fulliter_shape (Xr : arr) (Xr_indptr Xr_indices : list nat)
    (Xc : arr) (Xc_indptr Xc_indices : list nat)
    (dimA dimB k : nat) (l2 l1 : Q) (use_cg : Z) (npass : nat) (ncores : Z)
    (s s' : loop_state) :
  wf_state dimA dimB k use_cg s ->
  fulliter Xr Xr_indptr Xr_indices Xc Xc_indptr Xc_indices dimA dimB k l2 l1
    use_cg npass ncores s = Some s' ->
  wf_state dimA dimB k use_cg s' /\
  st_step_size s' =
    (if (use_cg =? 0)%Z then (st_step_size s * (1 # 2))%Q else st_step_size s) /\
  (use_cg <> 0%Z \/ 1 <= npass -> all_nonneg (st_A s') /\ all_nonneg (st_B s')) /\
  (use_cg = 0%Z -> npass = 0 -> st_A s' = st_A s /\ st_B s' = st_B s).
Proof.
  intros Hwf. unfold fulliter.
  destruct (update_A _ _ _ _ _ _ _ _ _ _ _ _) as [s1|] eqn:E1; [|discriminate].
  cbn. intros E2.
  apply update_A_shape in E1; [|exact Hwf].
  destruct E1 as (Hwf1 & HB1 & Hst1 & _ & Hnn1 & H01).
  apply update_B_shape in E2; [|exact Hwf1].
  destruct E2 as (Hwf2 & HA2 & Hst2 & Hnn2 & H02).
  split; [exact Hwf2|]. split; [rewrite Hst2, Hst1; reflexivity|]. split.
  - intros H. split; [rewrite HA2; apply Hnn1, H | apply Hnn2, H].
  - intros Hc Hp. split; [rewrite HA2; apply H01; assumption|].
    rewrite (H02 Hc Hp). exact HB1.
Qed.

Lemma run_loop_S (Xr : arr) (Xr_indptr Xr_indices : list nat)
    (Xc : arr) (Xc_indptr Xc_indices : list nat)
    (dimA dimB k : nat) (l2 l1 : Q) (use_cg : Z) (npass : nat) (ncores : Z)
    (n : nat) (s : loop_state) :
  run_loop Xr Xr_indptr Xr_indices Xc Xc_indptr Xc_indices dimA dimB k l2 l1
    use_cg npass ncores (S n) s =
  s' ← run_loop Xr Xr_indptr Xr_indices Xc Xc_indptr Xc_indices dimA dimB k l2 l1
         use_cg npass ncores n s;
  fulliter Xr Xr_indptr Xr_indices Xc Xc_indptr Xc_indices dimA dimB k l2 l1
    use_cg npass ncores s'.
Proof. reflexivity. Qed.

Lemma halve_iter (n : nat) (x : Q) :
  (Nat.iter n (fun y => y * (1 # 2)) x == x * (1 # 2) ^ Z.of_nat n)%Q.
Proof.
  induction n as [|m IH].
  - change (x == x * 1)%Q. ring.
  - rewrite Nat.iter_succ, IH, Nat2Z.inj_succ.
    unfold Z.succ. rewrite Qpower_plus by discriminate.
    change ((1 # 2) ^ 1)%Q with (1 # 2)%Q. ring.
Qed.

Lemma run_loop_shape (Xr : arr) (Xr_indptr Xr_indices : list nat)
    (Xc : arr) (Xc_indptr Xc_indices : list nat)
    (dimA dimB k : nat) (l2 l1 : Q) (use_cg : Z) (npass : nat) (ncores : Z)
    (n : nat) (s s' : loop_state) :
  wf_state dimA dimB k use_cg s ->
  run_loop Xr Xr_indptr Xr_indices Xc Xc_indptr Xc_indices dimA dimB k l2 l1
    use_cg npass ncores n s = Some s' ->
  wf_state dimA dimB k use_cg s' /\
  st_step_size s' =
    (if (use_cg =? 0)%Z then Nat.iter n (fun y => y * (1 # 2))%Q (st_step_size s)
     else st_step_size s) /\
  (1 <= n -> use_cg <> 0%Z \/ 1 <= npass ->
   all_nonneg (st_A s') /\ all_nonneg (st_B s')) /\
  (use_cg = 0%Z -> npass = 0 -> st_A s' = st_A s /\ st_B s' = st_B s).
Proof.
  intros Hwf. revert s'. induction n as [|m IH]; intros s' H.
  - cbn in H. injection H as <-. split; [exact Hwf|].
    split; [destruct (use_cg =? 0)%Z; reflexivity|].
    split; [intros; lia | intros; split; reflexivity].
  - rewrite run_loop_S in H.
    destruct (run_loop _ _ _ _ _ _ _ _ _ _ _ _ _ _ m s) as [t|] eqn:Et; [|discriminate].
    cbn in H. destruct (IH t eq_refl) as (Hwft & Hstt & _ & H0t).
    apply fulliter_shape in H; [|exact Hwft].
    destruct H as (Hwf' & Hst' & Hnn' & H0').
    split; [exact Hwf'|]. split; [|split].
    + rewrite Hst', Hstt. destruct (use_cg =? 0)%Z; reflexivity.
    + intros _ Hc. apply Hnn', Hc.
    + intros Hc Hp. destruct (H0' Hc Hp) as [-> ->]. apply H0t; assumption.
Qed.

(** ** Properties of the driver *)

(** A run that printed nothing went through the loop. *)
Lemma run_poismf_success_inv
    (Xr : arr) (Xr_indptr Xr_indices : list nat)
    (Xc : arr) (Xc_indptr Xc_indices : list nat)
    (dimA dimB k : nat) (l2 l1 : Q) (use_cg : Z) (npass : nat) (ncores : Z)
    (A B : arr) (step_size : Q) (numiter : nat)
    (m_cnst_sum m_master : malloc_outcome) (m_workers : list malloc_outcome)
    (r : result) :
  run_poismf A Xr Xr_indptr Xr_indices B Xc Xc_indptr Xc_indices dimA dimB k l2 l1
      use_cg step_size numiter npass ncores m_cnst_sum m_master m_workers = Some r ->
  stderr r = [] ->
  exists cnst_sum buffer_arr s,
    length cnst_sum = k /\ k <= length buffer_arr /\
    run_loop Xr Xr_indptr Xr_indices Xc Xc_indptr Xc_indices dimA dimB k l2 l1
      use_cg npass ncores numiter (loop_init A B step_size cnst_sum buffer_arr)
      = Some s /\
    outA r = st_A s /\ outB r = st_B s.
Proof.
  unfold run_poismf.
  destruct (is_null _ || existsb _ _ || is_null _) eqn:E.
  - intros [= <-]. discriminate.
  - destruct m_cnst_sum as [|g1], m_master as [|g2]; cbn in E |- *;
      try discriminate; try (rewrite orb_true_r in E; discriminate).
    destruct (run_loop _ _ _ _ _ _ _ _ _ _ _ _ _ _ _ _) as [s|] eqn:Es;
      [|discriminate].
    cbn. intros [= <-] _.
    exists (g1 <$> seq 0 k), (g2 <$> seq 0 (if negb (use_cg =? 0)%Z then k * 4 else k)), s.
    rewrite !length_fmap, !length_seq.
    split; [reflexivity|]. split; [destruct (negb _); lia|].
    split; [exact Es|]. split; reflexivity.
Qed.

(** C3 (as amended). After every outer iteration all entries of [A] and
    [B] are [>= 0], provided the solver is the conjugate-gradient one,
    or [npass >= 1], or [A] and [B] were non-negative to begin with:
    this holds of the loop variables after [n >= 1] iterations, and of
    what a run with [numiter >= 1] that allocated its buffers returns.
    (With the proximal-gradient solver and [npass = 0] no row is
    touched, hence none is clipped.)  Each proximal-gradient pass and
    each conjugate-gradient row solve ends with the clipping loop:
    [pgd_pass_shape], [cg_row_shape]. *)
Theorem C3_nonneg_after_every_iteration
    (Xr : arr) (Xr_indptr Xr_indices : list nat)
    (Xc : arr) (Xc_indptr Xc_indices : list nat)
    (dimA dimB k : nat) (l2 l1 : Q) (use_cg : Z) (npass : nat) (ncores : Z)
    (A B : arr) (step_size : Q) :
  length A = dimA * k -> length B = dimB * k ->
  use_cg <> 0%Z \/ 1 <= npass \/ (all_nonneg A /\ all_nonneg B) ->
  (forall (cnst_sum buffer_arr : arr) (n : nat) (s : loop_state),
     k <= length cnst_sum -> (use_cg = 0%Z -> k <= length buffer_arr) ->
     1 <= n ->
     run_loop Xr Xr_indptr Xr_indices Xc Xc_indptr Xc_indices dimA dimB k l2 l1
       use_cg npass ncores n (loop_init A B step_size cnst_sum buffer_arr) = Some s ->
     all_nonneg (st_A s) /\ all_nonneg (st_B s)) /\
  (forall (numiter : nat) (m_cnst_sum m_master : malloc_outcome)
          (m_workers : list malloc_outcome) (r : result),
     1 <= numiter ->
     run_poismf A Xr Xr_indptr Xr_indices B Xc Xc_indptr Xc_indices dimA dimB k l2
         l1 use_cg step_size numiter npass ncores m_cnst_sum m_master m_workers
       = Some r ->
     stderr r = [] ->
     all_nonneg (outA r) /\ all_nonneg (outB r)).
Proof.
  intros HA HB Hcase.
  assert (forall (cnst_sum buffer_arr : arr) (n : nat) (s : loop_state),
     k <= length cnst_sum -> (use_cg = 0%Z -> k <= length buffer_arr) ->
     1 <= n ->
     run_loop Xr Xr_indptr Xr_indices Xc Xc_indptr Xc_indices
       dimA dimB k l2 l1 use_cg npass ncores n
       (loop_init A B step_size cnst_sum buffer_arr) = Some s ->
     all_nonneg (st_A s) /\ all_nonneg (st_B s)) as Hloop.
  { intros cnst_sum buffer_arr n s Hcs Hbuf Hn H.
    apply run_loop_shape in H.
    - destruct H as (_ & _ & Hnn & H0).
      destruct (decide (use_cg <> 0%Z \/ 1 <= npass)) as [Hc|Hc].
      + apply Hnn; assumption.
      + destruct Hcase as [Hc'|[Hc'|Hinit]]; [tauto | tauto |].
        destruct (H0 ltac:(lia) ltac:(lia)) as [-> ->]. exact Hinit.
    - unfold wf_state, loop_init. cbn. tauto. }
  split; [exact Hloop|].
  intros numiter m_cnst_sum m_master m_workers r Hn Hrun Herr.
  apply run_poismf_success_inv in Hrun; [|exact Herr].
  destruct Hrun as (c & b & s & Hc & Hb & Hs & -> & ->).
  apply (Hloop c b numiter s); [lia | intros _; exact Hb | exact Hn | exact Hs].
Qed.

Lemma eqk_row_of (k : nat) (f : arr -> arr) (M M' : arr) (i n : nat) :
  (forall u v, eqk k u v -> eqk k (f u) (f v)) ->
  eqk k (drop (i * k) M') (Nat.iter n f (drop (i * k) M)) ->
  forall j, j < k -> (M' !!! (i * k + j)%nat == Nat.iter n f (row_of M i k) !!! j)%Q.
Proof.
  intros Hf H j Hj. rewrite <- lookup_total_drop, (H j Hj).
  assert (eqk k (Nat.iter n f (drop (i * k) M)) (Nat.iter n f (row_of M i k))) as E.
  { apply iter_pass_proper; [exact Hf|]. apply eqk_sym, eqk_take. }
  exact (E j Hj).
Qed.

(** One outer iteration of the proximal-gradient solver, row by row. *)
Lemma fulliter_pgd_spec
    (Xr : arr) (Xr_indptr Xr_indices : list nat)
    (Xc : arr) (Xc_indptr Xc_indices : list nat)
    (dimA dimB k : nat) (l2 l1 : Q) (npass : nat) (ncores : Z)
    (s s' : loop_state) :
  wf_state dimA dimB k 0 s ->
  fulliter Xr Xr_indptr Xr_indices Xc Xc_indptr Xc_indices dimA dimB k l2 l1
    0 npass ncores s = Some s' ->
  (forall ia j, ia < dimA -> j < k ->
     Qeq (st_A s' !!! (ia * k + j))
         (Nat.iter npass
            (spec_pgd_pass k (st_B s) dimB (drop (Xr_indptr !!! ia) Xr)
               (drop (Xr_indptr !!! ia) Xr_indices)
               (Xr_indptr !!! (ia + 1) - Xr_indptr !!! ia)
               (st_step_size s) (l1_applied l1) l2)
            (row_of (st_A s) ia k) !!! j)) /\
  (forall ib j, ib < dimB -> j < k ->
     Qeq (st_B s' !!! (ib * k + j))
         (Nat.iter npass
            (spec_pgd_pass k (st_A s') dimA (drop (Xc_indptr !!! ib) Xc)
               (drop (Xc_indptr !!! ib) Xc_indices)
               (Xc_indptr !!! (ib + 1) - Xc_indptr !!! ib)
               (st_step_size s) (l1_applied l1) l2)
            (row_of (st_B s) ib k) !!! j)).
Proof.
  intros Hwf. unfold fulliter.
  destruct (update_A _ _ _ _ _ _ _ _ _ _ _ _) as [s1|] eqn:E1; [|discriminate].
  intros E2.
  change (update_B Xr Xc Xc_indptr Xc_indices dimA dimB k l2 l1 0 npass ncores s1
          = Some s') in E2.
  pose proof (update_A_shape _ _ _ _ _ _ _ _ _ _ _ _ _ Hwf E1)
    as (Hwf1 & HB1 & Hst1 & Hcd1 & _ & _).
  pose proof (update_B_shape _ _ _ _ _ _ _ _ _ _ _ _ _ _ Hwf1 E2)
    as (_ & HA2 & _).
  split.
  - intros ia j Hia Hj. rewrite HA2.
    apply eqk_row_of; [intros u v; apply spec_pgd_pass_proper | | exact Hj].
    apply (update_A_pgd_spec _ _ _ _ _ _ _ _ _ _ _ _ Hwf E1 ia Hia).
  - intros ib j Hib Hj. rewrite HA2, <- HB1, <- Hst1.
    apply eqk_row_of; [intros u v; apply spec_pgd_pass_proper | | exact Hj].
    eapply update_B_pgd_spec; [exact Hwf1 | | exact E2 | exact Hib].
    rewrite Hcd1, Hst1. reflexivity.
Qed.

(** C4 (as amended). With the proximal-gradient solver, outer
    iteration [n] takes every row of [A], then every row of [B], through
    exactly [npass] passes of [spec_pgd_pass]: gradient of the
    likelihood term, step along it, shift by
    [cnst_sum = −step_size·(colsum(F) + l1)], scaling by
    [cnst_div = 1/(1 + 2·l2_reg·step_size)], clipping at 0.  Here [F] is
    the matrix held fixed ([B], then the updated [A]), [step_size] is
    the step size of that iteration, and [l1] is [l1_reg] when
    [l1_reg > 0] and 0 otherwise. *)
Theorem C4_pgd_passes
    (Xr : arr) (Xr_indptr Xr_indices : list nat)
    (Xc : arr) (Xc_indptr Xc_indices : list nat)
    (dimA dimB k : nat) (l2 l1 : Q) (npass : nat) (ncores : Z)
    (A B : arr) (step_size : Q) (cnst_sum buffer_arr : arr)
    (n : nat) (s s' : loop_state) :
  length A = dimA * k -> length B = dimB * k ->
  k <= length cnst_sum -> k <= length buffer_arr ->
  run_loop Xr Xr_indptr Xr_indices Xc Xc_indptr Xc_indices dimA dimB k l2 l1
    0 npass ncores n (loop_init A B step_size cnst_sum buffer_arr) = Some s ->
  fulliter Xr Xr_indptr Xr_indices Xc Xc_indptr Xc_indices dimA dimB k l2 l1
    0 npass ncores s = Some s' ->
  (forall ia j, ia < dimA -> j < k ->
     Qeq (st_A s' !!! (ia * k + j))
         (Nat.iter npass
            (spec_pgd_pass k (st_B s) dimB (drop (Xr_indptr !!! ia) Xr)
               (drop (Xr_indptr !!! ia) Xr_indices)
               (Xr_indptr !!! (ia + 1) - Xr_indptr !!! ia)
               (st_step_size s) (l1_applied l1) l2)
            (row_of (st_A s) ia k) !!! j)) /\
  (forall ib j, ib < dimB -> j < k ->
     Qeq (st_B s' !!! (ib * k + j))
         (Nat.iter npass
            (spec_pgd_pass k (st_A s') dimA (drop (Xc_indptr !!! ib) Xc)
               (drop (Xc_indptr !!! ib) Xc_indices)
               (Xc_indptr !!! (ib + 1) - Xc_indptr !!! ib)
               (st_step_size s) (l1_applied l1) l2)
            (row_of (st_B s) ib k) !!! j)).
Proof.
  intros HA HB Hcs Hbuf Hrun Hit.
  assert (wf_state dimA dimB k 0 (loop_init A B step_size cnst_sum buffer_arr)) as Hwf0.
  { unfold wf_state, loop_init. cbn. tauto. }
  pose proof (run_loop_shape _ _ _ _ _ _ _ _ _ _ _ _ _ _ _ _ _ Hwf0 Hrun)
    as (Hwf & _).
  exact (fulliter_pgd_spec Xr Xr_indptr Xr_indices Xc Xc_indptr Xc_indices
           dimA dimB k l2 l1 npass ncores s s' Hwf Hit).
Qed.

Lemma spec_pgd_pass_step_proper (k : nat) (F : arr) (dimF : nat) (X : arr)
    (Xind : list nat) (nnz : nat) (s1 s2 l1 l2 : Q) (c1 c2 : arr) :
  (s1 == s2)%Q -> eqk k c1 c2 ->
  eqk k (spec_pgd_pass k F dimF X Xind nnz s1 l1 l2 c1)
        (spec_pgd_pass k F dimF X Xind nnz s2 l1 l2 c2).
Proof.
  intros Hs H j Hj. rewrite !spec_pgd_pass_lookup by exact Hj.
  apply nonneg_proper.
  rewrite (H j Hj), (spec_grad_proper k c1 c2 F X Xind nnz j H), Hs. reflexivity.
Qed.

Lemma iter_pass_step_proper (n k : nat) (F : arr) (dimF : nat) (X : arr)
    (Xind : list nat) (nnz : nat) (s1 s2 l1 l2 : Q) (c : arr) :
  (s1 == s2)%Q ->
  eqk k (Nat.iter n (spec_pgd_pass k F dimF X Xind nnz s1 l1 l2) c)
        (Nat.iter n (spec_pgd_pass k F dimF X Xind nnz s2 l1 l2) c).
Proof.
  intros Hs. induction n as [|m IH]; [apply eqk_refl|].
  rewrite !Nat.iter_succ. apply spec_pgd_pass_step_proper; assumption.
Qed.

(** C5. With the proximal-gradient solver, the step size in force
    during outer iteration [n] (counted from 0) is
    [step_size · 0.5^n]: both the update of [A] and the update of [B]
    of that iteration are passes of [spec_pgd_pass] at that step size,
    the update of [A] leaves the step size alone, and the iteration
    ends with the step size halved once. *)
Theorem C5_step_decay
    (Xr : arr) (Xr_indptr Xr_indices : list nat)
    (Xc : arr) (Xc_indptr Xc_indices : list nat)
    (dimA dimB k : nat) (l2 l1 : Q) (npass : nat) (ncores : Z)
    (A B : arr) (step_size : Q) (cnst_sum buffer_arr : arr)
    (n : nat) (s s' : loop_state) :
  length A = dimA * k -> length B = dimB * k ->
  k <= length cnst_sum -> k <= length buffer_arr ->
  run_loop Xr Xr_indptr Xr_indices Xc Xc_indptr Xc_indices dimA dimB k l2 l1
    0 npass ncores n (loop_init A B step_size cnst_sum buffer_arr) = Some s ->
  fulliter Xr Xr_indptr Xr_indices Xc Xc_indptr Xc_indices dimA dimB k l2 l1
    0 npass ncores s = Some s' ->
  Qeq (st_step_size s) (step_size * (1 # 2) ^ Z.of_nat n) /\
  (exists s1,
     update_A Xr Xr_indptr Xr_indices dimA dimB k l2 l1 0 npass ncores s = Some s1 /\
     update_B Xr Xc Xc_indptr Xc_indices dimA dimB k l2 l1 0 npass ncores s1 = Some s' /\
     st_step_size s1 = st_step_size s) /\
  (forall ia j, ia < dimA -> j < k ->
     Qeq (st_A s' !!! (ia * k + j))
         (Nat.iter npass
            (spec_pgd_pass k (st_B s) dimB (drop (Xr_indptr !!! ia) Xr)
               (drop (Xr_indptr !!! ia) Xr_indices)
               (Xr_indptr !!! (ia + 1) - Xr_indptr !!! ia)
               (step_size * (1 # 2) ^ Z.of_nat n) (l1_applied l1) l2)
            (row_of (st_A s) ia k) !!! j)) /\
  (forall ib j, ib < dimB -> j < k ->
     Qeq (st_B s' !!! (ib * k + j))
         (Nat.iter npass
            (spec_pgd_pass k (st_A s') dimA (drop (Xc_indptr !!! ib) Xc)
               (drop (Xc_indptr !!! ib) Xc_indices)
               (Xc_indptr !!! (ib + 1) - Xc_indptr !!! ib)
               (step_size * (1 # 2) ^ Z.of_nat n) (l1_applied l1) l2)
            (row_of (st_B s) ib k) !!! j)) /\
  Qeq (st_step_size s') (step_size * (1 # 2) ^ Z.of_nat (S n)).
Proof.
  intros HA HB Hcs Hbuf Hrun Hit.
  assert (wf_state dimA dimB k 0 (loop_init A B step_size cnst_sum buffer_arr)) as Hwf0.
  { unfold wf_state, loop_init. cbn. tauto. }
  pose proof (run_loop_shape _ _ _ _ _ _ _ _ _ _ _ _ _ _ _ _ _ Hwf0 Hrun)
    as (Hwf & Hst & _ & _).
  cbn [Z.eqb loop_init st_step_size] in Hst.
  assert (Qeq (st_step_size s) (step_size * (1 # 2) ^ Z.of_nat n)) as Hstep.
  { rewrite Hst. apply halve_iter. }
  pose proof (fulliter_pgd_spec _ _ _ _ _ _ _ _ _ _ _ _ _ _ _ Hwf Hit) as (HrA & HrB).
  split; [exact Hstep|]. split; [|split; [|split]].
  - unfold fulliter in Hit.
    destruct (update_A _ _ _ _ _ _ _ _ _ _ _ _) as [s1|] eqn:E1; [|discriminate].
    exists s1. split; [reflexivity|]. split; [exact Hit|].
    apply (update_A_shape _ _ _ _ _ _ _ _ _ _ _ _ _ Hwf E1).
  - intros ia j Hia Hj. rewrite (HrA ia j Hia Hj).
    apply iter_pass_step_proper; assumption.
  - intros ib j Hib Hj. rewrite (HrB ib j Hib Hj).
    apply iter_pass_step_proper; assumption.
  - pose proof (fulliter_shape _ _ _ _ _ _ _ _ _ _ _ _ _ _ _ _ Hwf Hit) as (_ & Hst' & _).
    cbn [Z.eqb] in Hst'. rewrite Hst', Hst.
    rewrite <- (halve_iter (S n) step_size). rewrite Nat.iter_succ. reflexivity.
Qed.

(** ** Allocation and release *)

Lemma alloc_loop_elem {T : Type} (bufs : list (option T)) (n : nat) (h : heap) (x : nat) :
  x ∈ for_loop n (fun t h => heap_alloc (2 + t) (bufs !!! t) h) h ->
  x ∈ h \/ exists t, t < n /\ x = 2 + t /\ is_null (bufs !!! t) = false.
Proof.
  induction n as [|m IH]; cbn [for_loop]; intros H; [left; exact H|].
  unfold heap_alloc at 1 in H. destruct (is_null (bufs !!! m)) eqn:E.
  - destruct (IH H) as [Hh|(t & Ht & Hx & Hn)]; [left; exact Hh|].
    right. exists t. split; [lia|]. split; assumption.
  - apply elem_of_cons in H. destruct H as [->|H].
    + right. exists m. split; [lia|]. split; [reflexivity | exact E].
    + destruct (IH H) as [Hh|(t & Ht & Hx & Hn)]; [left; exact Hh|].
      right. exists t. split; [lia|]. split; assumption.
Qed.

Lemma free_elem {T : Type} (id : nat) (p : option T) (h : heap) (x : nat) :
  x ∈ free id p h -> x ∈ h /\ ~ (x = id /\ is_null p = false).
Proof.
  unfold free. destruct (is_null p).
  - intros H. split; [exact H|]. intros [_ Hn]. discriminate.
  - intros H. apply list_elem_of_filter in H. destruct H as [Hne Hx].
    split; [exact Hx|]. intros [He _]. contradiction.
Qed.

Lemma free_loop_elem {T : Type} (bufs : list (option T)) (n : nat) (h : heap) (x : nat) :
  x ∈ for_loop n (fun t h => free (2 + t) (bufs !!! t) h) h ->
  x ∈ h /\ forall t, t < n -> ~ (x = 2 + t /\ is_null (bufs !!! t) = false).
Proof.
  induction n as [|m IH]; cbn [for_loop]; intros H.
  - split; [exact H|]. intros t Ht. lia.
  - apply free_elem in H. destruct H as [H Hm].
    destruct (IH H) as [Hh Hall]. split; [exact Hh|].
    intros t Ht. destruct (decide (t = m)) as [->|]; [exact Hm|].
    apply Hall. lia.
Qed.

(** Every block that was obtained is released by the clean-up code. *)
Lemma heap_balanced {T : Type} (c m : option T) (bufs : list (option T)) :
  for_loop (length bufs) (fun t h => free (2 + t) (bufs !!! t) h)
    (free 1 m (free 0 c
       (for_loop (length bufs) (fun t h => heap_alloc (2 + t) (bufs !!! t) h)
          (heap_alloc 1 m (heap_alloc 0 c []))))) = [].
Proof.
  apply elem_of_nil_inv. intros x Hx.
  apply free_loop_elem in Hx. destruct Hx as [Hx Hw].
  apply free_elem in Hx. destruct Hx as [Hx Hm].
  apply free_elem in Hx. destruct Hx as [Hx Hc].
  apply alloc_loop_elem in Hx. destruct Hx as [Hx|(t & Ht & -> & Hn)].
  - unfold heap_alloc in Hx.
    destruct (is_null m) eqn:Em, (is_null c) eqn:Ec;
      repeat (apply elem_of_cons in Hx; destruct Hx as [->|Hx]);
      try (apply elem_of_nil in Hx; contradiction); tauto.
  - apply (Hw t Ht). split; [reflexivity | exact Hn].
Qed.

Lemma existsb_null_fail (size : nat) (ms : list malloc_outcome) :
  MallocFail ∈ ms -> existsb is_null (malloc size <$> ms) = true.
Proof.
  induction ms as [|m ms IH]; intros H.
  - apply elem_of_nil in H. contradiction.
  - apply elem_of_cons in H. cbn. destruct H as [<-|H]; [reflexivity|].
    rewrite (IH H). apply orb_true_r.
Qed.

(** C6. With [numiter = 0] the run returns the factor matrices it was
    given, entry for entry, whatever the allocations do. *)
Theorem C6_numiter_zero_noop
    (Xr : arr) (Xr_indptr Xr_indices : list nat)
    (Xc : arr) (Xc_indptr Xc_indices : list nat)
    (dimA dimB k : nat) (l2 l1 : Q) (use_cg : Z) (npass : nat) (ncores : Z)
    (A B : arr) (step_size : Q)
    (m_cnst_sum m_master : malloc_outcome) (m_workers : list malloc_outcome) :
  exists r,
    run_poismf A Xr Xr_indptr Xr_indices B Xc Xc_indptr Xc_indices dimA dimB k l2 l1
        use_cg step_size 0 npass ncores m_cnst_sum m_master m_workers = Some r /\
    outA r = A /\ outB r = B.
Proof.
  unfold run_poismf.
  destruct (is_null _ || existsb _ _ || is_null _) eqn:E.
  - eexists. split; [reflexivity|]. split; reflexivity.
  - destruct m_cnst_sum, m_master; cbn in E |- *;
      try discriminate; try (rewrite orb_true_r in E; discriminate).
    eexists. split; [reflexivity|]. split; reflexivity.
Qed.

(** C7. When the allocation of [cnst_sum] or of the scratch buffer of any
    worker fails, the run prints the diagnostic, releases every block
    that was obtained, performs no update and hands back [A] and [B]
    as given.  The result has no status: the matrices are the ones a
    successful run of zero iterations returns, and only the diagnostic
    tells the two apart. *)
Theorem C7_allocation_failure
    (Xr : arr) (Xr_indptr Xr_indices : list nat)
    (Xc : arr) (Xc_indptr Xc_indices : list nat)
    (dimA dimB k : nat) (l2 l1 : Q) (use_cg : Z) (npass : nat) (ncores : Z)
    (A B : arr) (step_size : Q) (numiter : nat)
    (m_cnst_sum m_master : malloc_outcome) (m_workers : list malloc_outcome)
    (g1 g2 : nat -> Q) :
  m_cnst_sum = MallocFail \/ m_master = MallocFail \/ MallocFail ∈ m_workers ->
  run_poismf A Xr Xr_indptr Xr_indices B Xc Xc_indptr Xc_indices dimA dimB k l2 l1
      use_cg step_size numiter npass ncores m_cnst_sum m_master m_workers
  = Some {| outA := A; outB := B; stderr := [alloc_error_message]; live := [] |} /\
  run_poismf A Xr Xr_indptr Xr_indices B Xc Xc_indptr Xc_indices dimA dimB k l2 l1
      use_cg step_size 0 npass ncores (MallocOk g1) (MallocOk g2) []
  = Some {| outA := A; outB := B; stderr := []; live := [] |}.
Proof.
  intros Hfail. split.
  - unfold run_poismf. rewrite heap_balanced.
    replace (is_null _ || existsb _ _ || is_null _) with true; [reflexivity|].
    symmetry. destruct Hfail as [->|[->|Hw]].
    + apply orb_true_r.
    + reflexivity.
    + rewrite (existsb_null_fail _ _ Hw), orb_true_r. reflexivity.
  - reflexivity.
Qed.

(** ** The conjugate-gradient path does not read the step size *)

Lemma update_A_cg_same (Xr : arr) (Xr_indptr Xr_indices : list nat)
    (dimA dimB k : nat) (l2 l1 : Q) (use_cg : Z) (npass : nat) (ncores : Z)
    (s t : loop_state) :
  use_cg <> 0%Z -> same_arrays s t ->
  opt_same_arrays
    (update_A Xr Xr_indptr Xr_indices dimA dimB k l2 l1 use_cg npass ncores s)
    (update_A Xr Xr_indptr Xr_indices dimA dimB k l2 l1 use_cg npass ncores t).
Proof.
  intros Hcg (HA & HB & Hcs & Hbuf). unfold update_A.
  destruct (Z.eqb_spec use_cg 0) as [|_]; [contradiction|]. cbn [negb].
  rewrite HA, HB, Hcs, Hbuf.
  destruct (cg_iteration _ _ _ _ _ _ _ _ _ _ _ _) as [r|]; cbn; [|exact I].
  unfold same_arrays. cbn. tauto.
Qed.

Lemma update_B_cg_same (Xr Xc : arr) (Xc_indptr Xc_indices : list nat)
    (dimA dimB k : nat) (l2 l1 : Q) (use_cg : Z) (npass : nat) (ncores : Z)
    (s t : loop_state) :
  use_cg <> 0%Z -> same_arrays s t ->
  opt_same_arrays
    (update_B Xr Xc Xc_indptr Xc_indices dimA dimB k l2 l1 use_cg npass ncores s)
    (update_B Xr Xc Xc_indptr Xc_indices dimA dimB k l2 l1 use_cg npass ncores t).
Proof.
  intros Hcg (HA & HB & Hcs & Hbuf). unfold update_B.
  destruct (Z.eqb_spec use_cg 0) as [|_]; [contradiction|]. cbn [negb].
  rewrite HA, HB, Hcs, Hbuf.
  destruct (cg_iteration _ _ _ _ _ _ _ _ _ _ _ _) as [r|]; cbn; [|exact I].
  unfold same_arrays. cbn. tauto.
Qed.

Lemma run_loop_cg_same (Xr : arr) (Xr_indptr Xr_indices : list nat)
    (Xc : arr) (Xc_indptr Xc_indices : list nat)
    (dimA dimB k : nat) (l2 l1 : Q) (use_cg : Z) (npass : nat) (ncores : Z)
    (n : nat) (s t : loop_state) :
  use_cg <> 0%Z -> same_arrays s t ->
  opt_same_arrays
    (run_loop Xr Xr_indptr Xr_indices Xc Xc_indptr Xc_indices dimA dimB k l2 l1
       use_cg npass ncores n s)
    (run_loop Xr Xr_indptr Xr_indices Xc Xc_indptr Xc_indices dimA dimB k l2 l1
       use_cg npass ncores n t).
Proof.
  intros Hcg Hst. induction n as [|m IH]; [exact Hst|].
  rewrite !run_loop_S.
  destruct (run_loop _ _ _ _ _ _ _ _ _ _ _ _ _ _ m s) as [s1|],
           (run_loop _ _ _ _ _ _ _ _ _ _ _ _ _ _ m t) as [t1|];
    cbn in IH |- *; try contradiction; [|exact I].
  unfold fulliter.
  pose proof (update_A_cg_same Xr Xr_indptr Xr_indices dimA dimB k l2 l1 use_cg
                npass ncores s1 t1 Hcg IH) as HA.
  destruct (update_A _ _ _ _ _ _ _ _ _ _ _ s1) as [s2|],
           (update_A _ _ _ _ _ _ _ _ _ _ _ t1) as [t2|];
    cbn in HA |- *; try contradiction; [|exact I].
  apply update_B_cg_same; assumption.
Qed.

(** C10. With the conjugate-gradient solver the result of the run does
    not depend on [step_size]: two runs that differ in that argument
    only are both undefined or return the same [A] and [B] (and the
    same diagnostics and heap). *)
Theorem C10_cg_ignores_step_size
    (Xr : arr) (Xr_indptr Xr_indices : list nat)
    (Xc : arr) (Xc_indptr Xc_indices : list nat)
    (dimA dimB k : nat) (l2 l1 : Q) (use_cg : Z) (npass : nat) (ncores : Z)
    (A B : arr) (step_size1 step_size2 : Q) (numiter : nat)
    (m_cnst_sum m_master : malloc_outcome) (m_workers : list malloc_outcome) :
  use_cg <> 0%Z ->
  run_poismf A Xr Xr_indptr Xr_indices B Xc Xc_indptr Xc_indices dimA dimB k l2 l1
      use_cg step_size1 numiter npass ncores m_cnst_sum m_master m_workers =
  run_poismf A Xr Xr_indptr Xr_indices B Xc Xc_indptr Xc_indices dimA dimB k l2 l1
      use_cg step_size2 numiter npass ncores m_cnst_sum m_master m_workers.
Proof.
  intros Hcg. unfold run_poismf.
  destruct (is_null _ || existsb _ _ || is_null _); [reflexivity|].
  destruct (malloc k m_cnst_sum) as [c|]; [|reflexivity]. cbn [mbind option_bind].
  destruct (malloc _ m_master) as [b|]; [|reflexivity]. cbn [mbind option_bind].
  pose proof (run_loop_cg_same Xr Xr_indptr Xr_indices Xc Xc_indptr Xc_indices
                dimA dimB k l2 l1 use_cg npass ncores numiter
                (loop_init A B step_size1 c b) (loop_init A B step_size2 c b) Hcg) as H.
  destruct (run_loop _ _ _ _ _ _ _ _ _ _ _ _ _ _ numiter (loop_init A B step_size1 c b))
    as [s1|],
    (run_loop _ _ _ _ _ _ _ _ _ _ _ _ _ _ numiter (loop_init A B step_size2 c b))
    as [s2|]; cbn in H |- *.
  - destruct H as (-> & -> & _); [|reflexivity].
    unfold same_arrays, loop_init. cbn. tauto.
  - exfalso. apply H. unfold same_arrays, loop_init. cbn. tauto.
  - exfalso. apply H. unfold same_arrays, loop_init. cbn. tauto.
  - reflexivity.
Qed.

(** ** The callbacks of the conjugate-gradient solver *)

Lemma memcpy_length (dst src : arr) (n : nat) : length (memcpy dst src n) = length dst.
Proof. apply (for_loop_upd_length n 0 (fun i _ => src !!! i)). Qed.

Lemma memcpy_lookup (dst src : arr) (n j : nat) :
  memcpy dst src n !!! j =
  if decide (j < n /\ j < length dst) then src !!! j else dst !!! j.
Proof.
  pose proof (for_loop_upd_lookup n 0 (fun i _ => src !!! i) dst j) as E.
  cbn [Nat.add] in E. unfold memcpy. rewrite E, Nat.sub_0_r.
  destruct (decide (0 <= j < n /\ j < length dst)); destruct (decide (j < n /\ j < length dst));
    try reflexivity; lia.
Qed.

Lemma for_loopM_fail {St : Type} (n i : nat) (body : nat -> St -> option St) (s : St) :
  i < n -> (forall t, body i t = None) -> for_loopM n body s = None.
Proof.
  intros Hi Hb. induction n as [|m IH]; [lia|]. cbn [for_loopM].
  destruct (decide (i = m)) as [->|Hne].
  - destruct (for_loopM m body s); cbn; [apply Hb | reflexivity].
  - rewrite IH by lia. reflexivity.
Qed.

Lemma sumQ_change (n j : nat) (f f' : nat -> Q) :
  j < n -> (forall i, i < n -> i <> j -> (f' i == f i)%Q) ->
  (sumQ n f' == sumQ n f + (f' j - f j))%Q.
Proof.
  induction n as [|m IH]; intros Hj H; [lia|].
  rewrite !sumQ_S. destruct (decide (j = m)) as [->|Hne].
  - rewrite (sumQ_ext m f' f) by (intros i Hi; apply H; lia). ring.
  - rewrite IH by (try lia; intros i Hi; apply H; lia).
    rewrite (H m) by lia. ring.
Qed.

Lemma calc_grad_single_inv (x grad g : arr) (n : nat) (data : fdata) :
  n <= length grad ->
  calc_grad_single x n grad data = Some g ->
  length g = length grad /\
  (forall i, i < nnz_this data ->
     ~ (spec_pred n x (F data) (X_ind data !!! i) == 0)%Q) /\
  (forall j, j < n ->
     Qeq (g !!! j)
         (spec_grad_single n (2 * inject_Z (Z.of_nat n) * l2_reg data) x
            (F data) (Fsum data) (X data) (X_ind data) (nnz_this data) j)).
Proof.
  intros Hn. unfold calc_grad_single.
  apply (for_loopM_inv (fun m o =>
    length o = length grad /\
    (forall i, i < m -> ~ (spec_pred n x (F data) (X_ind data !!! i) == 0)%Q) /\
    (forall j, j < n ->
       Qeq (o !!! j)
           (spec_grad_single n (2 * inject_Z (Z.of_nat n) * l2_reg data) x
              (F data) (Fsum data) (X data) (X_ind data) m j)))).
  - split; [rewrite cblas_daxpy_length; apply memcpy_length|].
    split; [intros i Hi; lia|].
    intros j Hj. rewrite cblas_daxpy_lookup, decide_True by (rewrite memcpy_length; lia).
    rewrite memcpy_lookup, decide_True by lia.
    unfold spec_grad_single, spec_grad. rewrite Nat.sub_0_r.
    change (sumQ 0 _) with 0%Q. rewrite inject_Z_mult. ring.
  - intros i o o' Hi (Hlen & Hnz & Hval) Hbody.
    destruct (ddiv _ _) as [q|] eqn:Eq; [|discriminate].
    cbn in Hbody. injection Hbody as <-.
    apply ddiv_Some in Eq. destruct Eq as [Hne ->].
    rewrite ddot_drop_r in Hne.
    split; [rewrite cblas_daxpy_length; exact Hlen|]. split.
    + intros i' Hi'. destruct (decide (i' = i)) as [->|]; [exact Hne|].
      apply Hnz. lia.
    + intros j Hj. rewrite cblas_daxpy_lookup, decide_True by lia.
      rewrite (Hval j Hj). unfold spec_grad_single, spec_grad. rewrite sumQ_S.
      rewrite ddot_drop_r, lookup_total_drop, Nat.sub_0_r.
      unfold Qdiv. ring.
Qed.

Lemma calc_grad_single_defined (x grad : arr) (n : nat) (data : fdata) :
  (forall i, i < nnz_this data ->
     ~ (spec_pred n x (F data) (X_ind data !!! i) == 0)%Q) ->
  exists g, calc_grad_single x n grad data = Some g.
Proof.
  intros H. unfold calc_grad_single.
  destruct (for_loopM_defined (fun _ _ => True) (nnz_this data)
    (fun i o =>
       q ← ddiv (- X data !!! i)
                (cblas_ddot n x (drop (X_ind data !!! i * n) (F data)));
       Some (cblas_daxpy n q (drop (X_ind data !!! i * n) (F data)) o 0))
    (cblas_daxpy n (inject_Z (2 * Z.of_nat n) * l2_reg data) x
       (memcpy grad (Fsum data) n) 0)) as (o & Eo & _); [exact I | | eauto].
  intros i o Hi _. rewrite ddiv_defined.
  - cbn. eauto.
  - rewrite ddot_drop_r. apply H, Hi.
Qed.

Lemma dlog_Some (y l : Q) : dlog y = Some l -> (0 < y)%Q /\ l = log y.
Proof.
  unfold dlog, Qltb. destruct (Qle_bool y 0) eqn:E; [discriminate|].
  intros [= <-]. split; [|reflexivity].
  apply Qnot_le_lt. intros H. apply Qle_bool_iff in H. congruence.
Qed.

Lemma dlog_defined (y : Q) : (0 < y)%Q -> dlog y = Some (log y).
Proof.
  intros H. unfold dlog, Qltb. destruct (Qle_bool y 0) eqn:E; [|reflexivity].
  apply Qle_bool_iff in E. apply Qle_not_lt in E. contradiction.
Qed.

Lemma dlog_None (y : Q) : (y <= 0)%Q -> dlog y = None.
Proof.
  intros H. unfold dlog, Qltb. apply Qle_bool_iff in H. rewrite H. reflexivity.
Qed.

Lemma calc_fun_single_inv (x : arr) (n : nat) (data : fdata) (f : Q) :
  calc_fun_single x n data = Some f ->
  (forall i, i < nnz_this data ->
     (0 < spec_pred n x (F data) (X_ind data !!! i))%Q) /\
  Qeq f (cblas_ddot n (Fsum data) x + l2_reg data * cblas_ddot n x x
         - sumQ (nnz_this data) (fun i =>
             X data !!! i
             * log (cblas_ddot n x (drop (X_ind data !!! i * n) (F data))))%Q).
Proof.
  unfold calc_fun_single.
  apply (for_loopM_inv (fun m o =>
    (forall i, i < m -> (0 < spec_pred n x (F data) (X_ind data !!! i))%Q) /\
    Qeq o (cblas_ddot n (Fsum data) x + l2_reg data * cblas_ddot n x x
           - sumQ m (fun i =>
               X data !!! i
               * log (cblas_ddot n x (drop (X_ind data !!! i * n) (F data))))%Q))).
  - split; [intros i Hi; lia|]. change (sumQ 0 _) with 0%Q. ring.
  - intros i o o' Hi (Hpos & Hval) Hbody.
    destruct (dlog _) as [l|] eqn:El; [|discriminate].
    cbn in Hbody. injection Hbody as <-.
    apply dlog_Some in El. destruct El as [Hp ->].
    split.
    + intros i' Hi'. destruct (decide (i' = i)) as [->|].
      * rewrite <- ddot_drop_r. exact Hp.
      * apply Hpos. lia.
    + rewrite sumQ_S, Hval. ring.
Qed.

Lemma calc_fun_single_defined (x : arr) (n : nat) (data : fdata) :
  (forall i, i < nnz_this data ->
     (0 < spec_pred n x (F data) (X_ind data !!! i))%Q) ->
  exists f, calc_fun_single x n data = Some f.
Proof.
  intros H. unfold calc_fun_single.
  destruct (for_loopM_defined (fun _ _ => True) (nnz_this data)
    (fun i o =>
       l ← dlog (cblas_ddot n x (drop (X_ind data !!! i * n) (F data)));
       Some (o - X data !!! i * l)%Q)
    (cblas_ddot n (Fsum data) x + l2_reg data * cblas_ddot n x x)%Q)
    as (o & Eo & _); [exact I | | eauto].
  intros i o Hi _. rewrite dlog_defined.
  - cbn. eauto.
  - rewrite ddot_drop_r. apply H, Hi.
Qed.

Lemma l2_term_derivative (n j : nat) (x : arr) (l2 h : Q) :
  j < n -> j < length x ->
  Qeq (l2 * cblas_ddot n (<[j := (x !!! j + h)%Q]> x) (<[j := (x !!! j + h)%Q]> x)
       - l2 * cblas_ddot n x x)
      (h * (2 * l2 * x !!! j) + l2 * h * h).
Proof.
  intros Hn Hl. rewrite !cblas_ddot_sum.
  rewrite (sumQ_change n j (fun i => (x !!! i * x !!! i)%Q)
             (fun i => (<[j := (x !!! j + h)%Q]> x !!! i
                        * <[j := (x !!! j + h)%Q]> x !!! i)%Q)).
  - rewrite list_lookup_total_insert_eq by exact Hl. ring.
  - exact Hn.
  - intros i Hi Hne. rewrite list_lookup_total_insert_ne by congruence. reflexivity.
Qed.

(** C2. The gradient that [calc_grad_single] returns for a vector [x]
    of length [n] is [Fsum + 2·n·l2_reg·x − Σ_i (x_i/pred_i)·F[index_i]],
    entry by entry.  [calc_fun_single] returns a value exactly when every
    [pred_i] is positive, and the objective it returns is
    [dot(Fsum,x) + l2_reg·dot(x,x) − Σ_i x_i·log(pred_i)]; moving entry
    [j] of [x] by [h] changes its L2 term by [h·(2·l2_reg·x_j) + l2_reg·h²],
    so the gradient of that term is [2·l2_reg·x].  The computed gradient
    exceeds the one with the coefficient [2·l2_reg] by
    [(n − 1)·2·l2_reg·x_j], which is not zero when [l2_reg > 0], [n > 1]
    and [x_j] is not zero. *)
Theorem C2_gradient_l2_factor (x grad g : arr) (n : nat) (data : fdata) (j : nat) :
  n <= length grad -> j < n -> j < length x ->
  calc_grad_single x n grad data = Some g ->
  Qeq (g !!! j)
      (spec_grad_single n (2 * inject_Z (Z.of_nat n) * l2_reg data) x
         (F data) (Fsum data) (X data) (X_ind data) (nnz_this data) j) /\
  (is_Some (calc_fun_single x n data) <->
   forall i, i < nnz_this data ->
     (0 < spec_pred n x (F data) (X_ind data !!! i))%Q) /\
  (forall f, calc_fun_single x n data = Some f ->
     Qeq f (cblas_ddot n (Fsum data) x + l2_reg data * cblas_ddot n x x
            - sumQ (nnz_this data) (fun i =>
                X data !!! i
                * log (cblas_ddot n x (drop (X_ind data !!! i * n) (F data))))%Q)) /\
  (forall h,
     Qeq (l2_reg data
            * cblas_ddot n (<[j := (x !!! j + h)%Q]> x) (<[j := (x !!! j + h)%Q]> x)
          - l2_reg data * cblas_ddot n x x)
         (h * (2 * l2_reg data * x !!! j) + l2_reg data * h * h)) /\
  Qeq (g !!! j
       - spec_grad_single n (2 * l2_reg data) x
           (F data) (Fsum data) (X data) (X_ind data) (nnz_this data) j)
      ((inject_Z (Z.of_nat n) - 1) * (2 * l2_reg data * x !!! j)) /\
  ((0 < l2_reg data)%Q -> 1 < n -> ~ (x !!! j == 0)%Q ->
   ~ Qeq (g !!! j)
         (spec_grad_single n (2 * l2_reg data) x
            (F data) (Fsum data) (X data) (X_ind data) (nnz_this data) j)).
Proof.
  intros Hn Hj Hl Hg.
  apply calc_grad_single_inv in Hg; [|exact Hn].
  destruct Hg as (_ & _ & Hg). specialize (Hg j Hj).
  assert (Qeq (g !!! j
       - spec_grad_single n (2 * l2_reg data) x
           (F data) (Fsum data) (X data) (X_ind data) (nnz_this data) j)
      ((inject_Z (Z.of_nat n) - 1) * (2 * l2_reg data * x !!! j))) as Hdiff.
  { rewrite Hg. unfold spec_grad_single. ring. }
  split; [exact Hg|]. split; [|split; [|split; [|split; [exact Hdiff|]]]].
  - split.
    + intros [f Hf]. apply calc_fun_single_inv in Hf. apply Hf.
    + intros Hpos. destruct (calc_fun_single_defined x n data Hpos) as [f Hf].
      exists f. exact Hf.
  - intros f Hf. apply calc_fun_single_inv in Hf. apply Hf.
  - intros h. apply l2_term_derivative; assumption.
  - intros Hl2 Hn1 Hx Heq.
    assert (0 < inject_Z (Z.of_nat n) - 1)%Q as Hpos.
    { rewrite <- (Qplus_opp_r 1). apply Qplus_lt_l.
      change 1%Q with (inject_Z 1). rewrite <- Zlt_Qlt. lia. }
    assert (~ ((inject_Z (Z.of_nat n) - 1) * (2 * l2_reg data * x !!! j) == 0)%Q) as Hne.
    { intros H0. apply Qmult_integral in H0. destruct H0 as [H0|H0].
      - rewrite H0 in Hpos. apply (Qlt_irrefl 0), Hpos.
      - apply Qmult_integral in H0. destruct H0 as [H0|H0]; [|contradiction].
        apply Qmult_integral in H0. destruct H0 as [H0|H0]; [discriminate|].
        rewrite H0 in Hl2. apply (Qlt_irrefl 0), Hl2. }
    apply Hne. rewrite <- Hdiff, Heq. ring.
Qed.

(** C8. None of the three routines tests [pred_i = dot(curr, F[index_i])]
    before dividing by it or taking its logarithm.  When every [pred_i]
    is positive all three are defined; a [pred_i] equal to zero makes
    all three undefined, and a non-positive one makes the objective
    undefined.  Nothing keeps [pred_i] positive: on the non-negative
    input below the first update clips the only row of [A] to zero and
    the update of [B] then divides by zero. *)
Theorem C8_no_guard_on_pred (out curr F X : arr) (Xind : list nat) (nnz k : nat)
    (grad Fsum : arr) (l2 : Q) :
  let data := {| F := F; Fsum := Fsum; X := X; X_ind := Xind;
                 nnz_this := nnz; l2_reg := l2 |} in
  ((forall i, i < nnz -> (0 < spec_pred k curr F (Xind !!! i))%Q) ->
   is_Some (calc_grad_pgd out curr F X Xind nnz k) /\
   is_Some (calc_grad_single curr k grad data) /\
   is_Some (calc_fun_single curr k data)) /\
  (forall i, i < nnz -> (spec_pred k curr F (Xind !!! i) == 0)%Q ->
   calc_grad_pgd out curr F X Xind nnz k = None /\
   calc_grad_single curr k grad data = None /\
   calc_fun_single curr k data = None) /\
  (forall i, i < nnz -> (spec_pred k curr F (Xind !!! i) <= 0)%Q ->
   calc_fun_single curr k data = None) /\
  run_poismf [1%Q] [1%Q] [0; 1] [0] [5%Q] [1%Q] [0; 1] [0] 1 1 1 0%Q 0%Q 0 1%Q 1 1 1
      (MallocOk (fun _ => 0%Q)) (MallocOk (fun _ => 0%Q)) [] = None.
Proof.
  intros data. split; [|split; [|split]].
  - intros Hpos.
    assert (forall i, i < nnz -> ~ (spec_pred k curr F (Xind !!! i) == 0)%Q) as Hne.
    { intros i Hi H0. specialize (Hpos i Hi). rewrite H0 in Hpos.
      apply (Qlt_irrefl 0), Hpos. }
    split; [|split].
    + destruct (calc_grad_pgd_defined out curr F X Xind nnz k Hne) as [o ->]. eauto.
    + destruct (calc_grad_single_defined curr grad k data Hne) as [o ->]. eauto.
    + destruct (calc_fun_single_defined curr k data Hpos) as [o ->]. eauto.
  - intros i Hi H0. split; [|split].
    + unfold calc_grad_pgd. apply (for_loopM_fail nnz i); [exact Hi|].
      intros t. replace (ddiv _ _) with (@None Q); [reflexivity|].
      symmetry. apply ddiv_None. rewrite ddot_drop_l. exact H0.
    + unfold calc_grad_single. apply (for_loopM_fail nnz i); [exact Hi|].
      intros t. replace (ddiv _ _) with (@None Q); [reflexivity|].
      symmetry. apply ddiv_None. cbn. rewrite ddot_drop_r. exact H0.
    + unfold calc_fun_single. apply (for_loopM_fail nnz i); [exact Hi|].
      intros t. rewrite dlog_None; [reflexivity|].
      cbn. rewrite ddot_drop_r, H0. apply Qle_refl.
  - intros i Hi H0.
    unfold calc_fun_single. apply (for_loopM_fail nnz i); [exact Hi|].
    intros t. rewrite dlog_None; [reflexivity|].
    cbn. rewrite ddot_drop_r. exact H0.
  - vm_compute. reflexivity.
Qed.

(** ** The update of [B] as the update of [A] with the roles exchanged *)

(** With the proximal-gradient solver the update of [B] is the update of
    [A] run on [(B, A)] with the column-compressed view in the place of
    the row-compressed one. *)
Lemma update_B_pgd_swaps_roles (Xr Xc : arr) (Xc_indptr Xc_indices : list nat)
    (dimA dimB k : nat) (l2 l1 : Q) (npass : nat) (ncores : Z) (s : loop_state) :
  st_cnst_div s = ddiv 1 (1 + 2 * l2 * st_step_size s) ->
  (fun s' => (st_B s', st_A s')) <$>
    update_B Xr Xc Xc_indptr Xc_indices dimA dimB k l2 l1 0 npass ncores s =
  (fun s' => (st_A s', st_B s')) <$>
    update_A Xc Xc_indptr Xc_indices dimB dimA k l2 l1 0 npass ncores (swap_roles s).
Proof.
  intros Hcd. unfold update_B, update_A. cbn [Z.eqb negb swap_roles
    st_A st_B st_step_size st_neg_step_sz st_cnst_div st_cnst_sum st_buffer_arr].
  rewrite Hcd. destruct (ddiv 1 _) as [cd|]; [|reflexivity]. cbn [mbind option_bind].
  destruct (pgd_iteration _ _ _ _ _ _ _ _ _ _ _ _ _) as [r|]; reflexivity.
Qed.

(** With the conjugate-gradient solver it is that update too, except
    that the values it reads are those of the row-compressed view
    ([Xr], line 318), indexed by the column-compressed pointers. *)
Lemma update_B_cg_reads_Xr (Xr Xc : arr) (Xc_indptr Xc_indices : list nat)
    (dimA dimB k : nat) (l2 l1 : Q) (use_cg : Z) (npass : nat) (ncores : Z)
    (s : loop_state) :
  use_cg <> 0%Z ->
  (fun s' => (st_B s', st_A s')) <$>
    update_B Xr Xc Xc_indptr Xc_indices dimA dimB k l2 l1 use_cg npass ncores s =
  (fun s' => (st_A s', st_B s')) <$>
    update_A Xr Xc_indptr Xc_indices dimB dimA k l2 l1 use_cg npass ncores
      (swap_roles s).
Proof.
  intros Hcg. unfold update_B, update_A.
  destruct (Z.eqb_spec use_cg 0) as [|_]; [contradiction|].
  cbn [negb swap_roles
    st_A st_B st_step_size st_neg_step_sz st_cnst_div st_cnst_sum st_buffer_arr].
  destruct (cg_iteration _ _ _ _ _ _ _ _ _ _ _ _) as [r|]; reflexivity.
Qed.

(** * Further properties of the code *)

(** ** Vector primitives (lines 57-63) *)

Lemma sumQ_scale (n : nat) (a : Q) (f : nat -> Q) :
  (sumQ n (fun i => a * f i) == a * sumQ n f)%Q.
Proof.
  induction n as [|m IH]; [change (0 == a * 0)%Q; ring|].
  rewrite !sumQ_S, IH. ring.
Qed.

Lemma sumQ_plus (n : nat) (f g : nat -> Q) :
  (sumQ n (fun i => f i + g i) == sumQ n f + sumQ n g)%Q.
Proof.
  induction n as [|m IH]; [change (0 == 0 + 0)%Q; ring|].
  rewrite !sumQ_S, IH. ring.
Qed.

Lemma sumQ_nonneg (n : nat) (f : nat -> Q) :
  (forall i, i < n -> (0 <= f i)%Q) -> (0 <= sumQ n f)%Q.
Proof.
  induction n as [|m IH]; intros H; [apply Qle_refl|].
  rewrite sumQ_S. rewrite <- (Qplus_0_r 0).
  apply Qplus_le_compat; [apply IH; intros; apply H; lia | apply H; lia].
Qed.

(** The dot product is symmetric, and the two in-place updates act on
    it as scaling and as addition of a multiple: for vectors that hold
    the [n] entries they are called with,
    [dot(α·x, y) = α·dot(x, y)] and [dot(y + a·x, z) = dot(y, z) + a·dot(x, z)]. *)
Theorem blas_fallbacks_linear (n : nat) (a alpha : Q) (x y z : arr) :
  n <= length x -> n <= length y ->
  (cblas_ddot n x y == cblas_ddot n y x)%Q /\
  (cblas_ddot n (cblas_dscal n alpha x 0) y == alpha * cblas_ddot n x y)%Q /\
  (cblas_ddot n (cblas_daxpy n a x y 0) z
   == cblas_ddot n y z + a * cblas_ddot n x z)%Q.
Proof.
  intros Hx Hy. rewrite !cblas_ddot_sum. split; [|split].
  - apply sumQ_ext. intros i Hi. ring.
  - rewrite <- sumQ_scale. apply sumQ_ext. intros i Hi.
    rewrite cblas_dscal_lookup, decide_True by lia. ring.
  - rewrite <- sumQ_scale, <- sumQ_plus. apply sumQ_ext. intros i Hi.
    rewrite cblas_daxpy_lookup, decide_True by lia.
    rewrite Nat.sub_0_r. ring.
Qed.

(** The two in-place updates write the [n] entries from the offset on
    and nothing else; the array keeps its length. *)
Theorem blas_fallbacks_frame (n : nat) (a alpha : Q) (x y : arr) (off j : nat) :
  ~ (off <= j < off + n) ->
  cblas_daxpy n a x y off !!! j = y !!! j /\
  cblas_dscal n alpha y off !!! j = y !!! j /\
  length (cblas_daxpy n a x y off) = length y /\
  length (cblas_dscal n alpha y off) = length y.
Proof.
  intros Hj.
  rewrite cblas_daxpy_lookup, cblas_dscal_lookup, !decide_False by lia.
  rewrite cblas_daxpy_length, cblas_dscal_length. repeat split.
Qed.

(** ** The clipping macro (line 90) *)

(** [nonneg] is the projection on the non-negative numbers: its value is
    the least non-negative number above its argument; it is monotone,
    and it leaves its own values alone. *)
Theorem nonneg_projection (x y : Q) :
  (0 <= nonneg x)%Q /\ (x <= nonneg x)%Q /\
  ((0 <= y)%Q -> (x <= y)%Q -> (nonneg x <= y)%Q) /\
  ((x <= y)%Q -> (nonneg x <= nonneg y)%Q) /\
  nonneg (nonneg x) = nonneg x.
Proof.
  assert (forall u, (u <= nonneg u)%Q) as Hle.
  { intros u. unfold nonneg. destruct (Qle_bool 0 u) eqn:E; [apply Qle_refl|].
    apply Qlt_le_weak, Qnot_le_lt. intros H. apply Qle_bool_iff in H. congruence. }
  assert (forall u v, (0 <= v)%Q -> (u <= v)%Q -> (nonneg u <= v)%Q) as Hlub.
  { intros u v H0 Huv. unfold nonneg. destruct (Qle_bool 0 u); assumption. }
  split; [apply nonneg_ge0|]. split; [apply Hle|]. split; [apply Hlub|]. split.
  - intros Hxy. apply Hlub; [apply nonneg_ge0|].
    apply Qle_trans with y; [exact Hxy | apply Hle].
  - apply nonneg_id, nonneg_ge0.
Qed.

(** ** Column sums: edge cases (lines 92-105) *)

(** [sum_by_cols] writes the first [ncol] entries of [out] and no other;
    for a matrix without rows these entries are 0, and for a matrix
    without negative entries none of them is negative. *)
Theorem sum_by_cols_edges (out M : arr) (nrow ncol : nat) (ncores : Z) :
  length (sum_by_cols out M nrow ncol ncores) = length out /\
  (forall j, ncol <= j -> sum_by_cols out M nrow ncol ncores !!! j = out !!! j) /\
  (forall col, col < ncol -> col < length out ->
     sum_by_cols out M 0 ncol ncores !!! col = 0%Q) /\
  (all_nonneg M -> forall col, col < ncol -> col < length out ->
     (0 <= sum_by_cols out M nrow ncol ncores !!! col)%Q).
Proof.
  split; [apply sum_by_cols_length|]. split; [|split].
  - intros j Hj. unfold sum_by_cols.
    induction nrow as [|r IH]; cbn [for_loop].
    + rewrite memset_zero_lookup, decide_False by lia. reflexivity.
    + pose proof (for_loop_upd_frame ncol 0
        (fun c o => (o !!! c + M !!! (r * ncol + c)%nat)%Q)) as E.
      cbn [Nat.add] in E. rewrite E by lia. exact IH.
  - intros col Hc Hl. rewrite sum_by_cols_lookup by lia. reflexivity.
  - intros HM col Hc Hl. rewrite sum_by_cols_lookup by lia.
    apply sumQ_nonneg. intros row _.
    destruct (decide (row * ncol + col < length M)) as [Hin|Hout].
    + apply (proj1 (all_nonneg_lookup M) HM). exact Hin.
    + rewrite list_lookup_total_alt, lookup_ge_None_2 by lia. apply Qle_refl.
Qed.

(** ** The single-row solver (lines 190-205) *)

(** [optimize_cg_single] hands the [k] entries of the row to the
    minimizer and returns the minimizer's point clipped at 0: no entry
    of the row is negative afterwards, what lies past the row is left
    alone, and the call is undefined exactly when the minimizer is. *)
Theorem optimize_cg_single_clips (curr X : arr) (X_ind : list nat) (nnz : nat)
    (F Fsum : arr) (k : nat) (l2 : Q) :
  k <= length curr ->
  let data := {| F := F; Fsum := Fsum; X := X; X_ind := X_ind;
                 nnz_this := nnz; l2_reg := l2 |} in
  let r := minimize_nonneg_cg (take k curr) k calc_fun_single calc_grad_single
             None data (1 # 10) 200 100 (1 # 4) (1 # 100) 20 1 None 1 0 in
  match r, optimize_cg_single curr X X_ind nnz F Fsum k l2 with
  | Some p, Some curr' =>
      length curr' = length curr /\
      (forall j, j < k -> curr' !!! j = nonneg (p.1 !!! j) /\ (0 <= curr' !!! j)%Q) /\
      (forall j, k <= j -> curr' !!! j = curr !!! j)
  | None, None => True
  | _, _ => False
  end.
Proof.
  intros Hk data r. unfold optimize_cg_single. fold data. fold r.
  destruct r as [p|]; cbn [mbind option_bind]; [|exact I].
  pose proof (for_loop_upd_lookup k 0 (fun _ v => nonneg v) (memcpy curr p.1 k)) as Hclip.
  pose proof (for_loop_upd_length k 0 (fun i c => nonneg (c !!! i)) (memcpy curr p.1 k))
    as Hlen.
  cbn [Nat.add] in Hclip, Hlen.
  split; [rewrite Hlen; apply memcpy_length|]. split.
  - intros j Hj. rewrite Hclip, decide_True by (rewrite memcpy_length; lia).
    rewrite memcpy_lookup, decide_True by lia.
    split; [reflexivity | apply nonneg_ge0].
  - intros j Hj. rewrite Hclip, decide_False by lia.
    rewrite memcpy_lookup, decide_False by lia. reflexivity.
Qed.

(** ** The row loops stay inside the matrix they update *)

(** Both row loops update the [dimA × k] entries of [A] in place: the
    array keeps its length and whatever follows the last row is not
    written.  This holds for every minimizer. *)
Theorem row_loops_frame (A B Xr : arr) (Xr_indptr Xr_indices : list nat)
    (dimA k : nat) (cnst_div : Q) (cnst_sum : arr) (step_size : Q)
    (npass : nat) (l2 : Q) (ncores : Z) (buf : arr) :
  dimA * k <= length A -> k <= length buf ->
  (forall A' buf',
     pgd_iteration A B Xr Xr_indptr Xr_indices dimA k cnst_div cnst_sum step_size
       npass ncores buf = Some (A', buf') ->
     length A' = length A /\ length buf' = length buf /\
     forall j, dimA * k <= j -> A' !!! j = A !!! j) /\
  (forall A' buf',
     cg_iteration A B Xr Xr_indptr Xr_indices dimA k cnst_sum npass l2 ncores buf
       = Some (A', buf') ->
     length A' = length A /\ forall j, dimA * k <= j -> A' !!! j = A !!! j).
Proof.
  intros HA Hbuf. split.
  - intros A' buf' H. apply pgd_iteration_shape in H; [|exact Hbuf|exact HA].
    destruct H as (H1 & H2 & H3 & _). auto.
  - intros A' buf' H. apply cg_iteration_shape in H; [|exact HA].
    destruct H as (H1 & H2 & _). auto.
Qed.

(** ** The two gradient routines *)

(** On the same row the combined gradient of the conjugate-gradient
    solver is defined exactly when the likelihood gradient of the
    proximal-gradient solver is, and it is
    [Fsum + 2·n·l2_reg·x] minus that gradient. *)
Theorem combined_gradient_from_likelihood_gradient
    (x grad out : arr) (n : nat) (data : fdata) :
  n <= length grad -> n <= length out ->
  (is_Some (calc_grad_single x n grad data) <->
   is_Some (calc_grad_pgd out x (F data) (X data) (X_ind data) (nnz_this data) n)) /\
  (forall g p,
     calc_grad_single x n grad data = Some g ->
     calc_grad_pgd out x (F data) (X data) (X_ind data) (nnz_this data) n = Some p ->
     forall j, j < n ->
       Qeq (g !!! j)
           (Fsum data !!! j + 2 * inject_Z (Z.of_nat n) * l2_reg data * x !!! j
            - p !!! j)).
Proof.
  intros Hg Ho. split.
  - split; intros [v Hv].
    + apply calc_grad_single_inv in Hv; [|exact Hg]. destruct Hv as (_ & Hne & _).
      destruct (calc_grad_pgd_defined out x (F data) (X data) (X_ind data)
                  (nnz_this data) n Hne) as [p ->]. eauto.
    + apply calc_grad_pgd_inv in Hv; [|exact Ho]. destruct Hv as (_ & Hne & _).
      destruct (calc_grad_single_defined x grad n data Hne) as [g ->]. eauto.
  - intros g p Eg Ep j Hj.
    apply calc_grad_single_inv in Eg; [|exact Hg]. destruct Eg as (_ & _ & Eg).
    apply calc_grad_pgd_inv in Ep; [|exact Ho]. destruct Ep as (_ & _ & Ep).
    rewrite (Eg j Hj), (Ep j Hj). unfold spec_grad_single. reflexivity.
Qed.



(** ** The regularization vector (lines 302-308 and 314-320) *)

(** After each half of an outer iteration the first [k] entries of
    [cnst_sum] are the column sums of the matrix that was held fixed,
    plus [l1_reg] when it is positive, and with the proximal-gradient
    solver that sum times [−step_size].  What [cnst_sum] held before
    does not enter. *)
Theorem cnst_sum_after_each_half
    (Xr : arr) (Xr_indptr Xr_indices : list nat)
    (Xc : arr) (Xc_indptr Xc_indices : list nat)
    (dimA dimB k : nat) (l2 l1 : Q) (use_cg : Z) (npass : nat) (ncores : Z)
    (s : loop_state) :
  wf_state dimA dimB k use_cg s ->
  (forall s' j,
     update_A Xr Xr_indptr Xr_indices dimA dimB k l2 l1 use_cg npass ncores s
       = Some s' -> j < k ->
     Qeq (st_cnst_sum s' !!! j)
         (if (use_cg =? 0)%Z
          then - st_step_size s * (spec_colsum (st_B s) dimB k j + l1_applied l1)
          else spec_colsum (st_B s) dimB k j + l1_applied l1)) /\
  (forall s' j,
     update_B Xr Xc Xc_indptr Xc_indices dimA dimB k l2 l1 use_cg npass ncores s
       = Some s' -> j < k ->
     Qeq (st_cnst_sum s' !!! j)
         (if (use_cg =? 0)%Z
          then - st_step_size s * (spec_colsum (st_A s) dimA k j + l1_applied l1)
          else spec_colsum (st_A s) dimA k j + l1_applied l1)).
Proof.
  intros (HA & HB & Hcs & Hbuf & Hneg). split.
  - intros s' j. unfold update_A.
    destruct (Z.eqb_spec use_cg 0) as [Hcg|Hcg]; cbn [negb].
    + destruct (ddiv 1 _) as [cd|]; [|discriminate]. cbn [mbind option_bind].
      destruct (pgd_iteration _ _ _ _ _ _ _ _ _ _ _ _ _) as [r|]; [|discriminate].
      cbn. intros [= <-] Hj. cbn.
      apply pgd_cnst_sum; [exact Hj | exact Hcs | rewrite Hneg; reflexivity].
    + destruct (cg_iteration _ _ _ _ _ _ _ _ _ _ _ _) as [r|]; [|discriminate].
      cbn. intros [= <-] Hj. cbn.
      rewrite add_l1_lookup by (rewrite ?sum_by_cols_length; lia).
      rewrite sum_by_cols_lookup by lia. reflexivity.
  - intros s' j. unfold update_B.
    destruct (Z.eqb_spec use_cg 0) as [Hcg|Hcg]; cbn [negb].
    + destruct (st_cnst_div s) as [cd|]; [|discriminate]. cbn [mbind option_bind].
      destruct (pgd_iteration _ _ _ _ _ _ _ _ _ _ _ _ _) as [r|]; [|discriminate].
      cbn. intros [= <-] Hj. cbn.
      apply pgd_cnst_sum; [exact Hj | exact Hcs | rewrite Hneg; reflexivity].
    + destruct (cg_iteration _ _ _ _ _ _ _ _ _ _ _ _) as [r|]; [|discriminate].
      cbn. intros [= <-] Hj. cbn.
      rewrite add_l1_lookup by (rewrite ?sum_by_cols_length; lia).
      rewrite sum_by_cols_lookup by lia. reflexivity.
Qed.

(** ** Rows without observations *)

Lemma cnst_div_range (l2 step : Q) :
  (0 <= l2)%Q -> (0 <= step)%Q ->
  (0 < 1 / (1 + 2 * l2 * step))%Q /\ (1 / (1 + 2 * l2 * step) <= 1)%Q.
Proof.
  intros Hl Hs.
  assert (1 <= 1 + 2 * l2 * step)%Q as Hd by nra.
  set (d := (1 + 2 * l2 * step)%Q) in *.
  assert (0 < / d)%Q as Hinv by (apply Qinv_lt_0_compat; lra).
  assert (d * / d == 1)%Q as Hone by (apply Qmult_inv_r; lra).
  unfold Qdiv. rewrite Qmult_1_l. split; [exact Hinv | nra].
Qed.

Lemma spec_pgd_pass_unobserved (k : nat) (F : arr) (dimF : nat) (X : arr)
    (Xind : list nat) (step l1 l2 : Q) (bound u : arr) :
  all_nonneg F -> (0 <= step)%Q -> (0 <= l1)%Q -> (0 <= l2)%Q ->
  (forall j, j < k -> (0 <= u !!! j)%Q /\ (u !!! j <= bound !!! j)%Q) ->
  forall j, j < k ->
    (0 <= spec_pgd_pass k F dimF X Xind 0 step l1 l2 u !!! j)%Q /\
    (spec_pgd_pass k F dimF X Xind 0 step l1 l2 u !!! j <= bound !!! j)%Q.
Proof.
  intros HF Hs Hl1 Hl2 Hu j Hj. rewrite spec_pgd_pass_lookup by exact Hj.
  split; [apply nonneg_ge0|].
  destruct (Hu j Hj) as [H0 Hb].
  destruct (cnst_div_range l2 step Hl2 Hs) as [Hcd0 Hcd1].
  set (cd := (1 / (1 + 2 * l2 * step))%Q) in *.
  assert (0 <= spec_colsum F dimF k j)%Q as Hcol.
  { unfold spec_colsum. apply sumQ_nonneg. intros row _.
    destruct (decide (row * k + j < length F)) as [Hin|Hout].
    - apply (proj1 (all_nonneg_lookup F) HF). exact Hin.
    - rewrite list_lookup_total_alt, lookup_ge_None_2 by lia. apply Qle_refl. }
  change (spec_grad k u F X Xind 0 j) with 0%Q.
  set (c := spec_colsum F dimF k j) in *. clearbody c cd.
  assert (0 <= step * (c + l1))%Q as Hsc by (apply Qmult_le_0_compat; lra).
  set (w := (u !!! j + step * 0 + - step * (c + l1))%Q).
  assert (w <= u !!! j)%Q as Hw by (unfold w; lra).
  unfold nonneg. destruct (Qle_bool 0 (w * cd)) eqn:E; [|lra].
  destruct (Qlt_le_dec w 0) as [Hneg|Hpos].
  - assert (w * cd <= 0)%Q by nra. lra.
  - assert (w * cd <= w)%Q by nra. lra.
Qed.

(** A row without observations, [Xr_indptr[ia+1] = Xr_indptr[ia]], can
    only shrink: with the proximal-gradient solver, a non-negative fixed
    matrix [B] and [step_size >= 0], [l2_reg >= 0], the update of [A]
    takes every non-negative entry of such a row to a value between 0
    and the entry it had, whatever [npass] is. *)
Theorem unobserved_row_shrinks
    (Xr : arr) (Xr_indptr Xr_indices : list nat)
    (dimA dimB k : nat) (l2 l1 : Q) (npass : nat) (ncores : Z)
    (s s' : loop_state) (ia : nat) :
  wf_state dimA dimB k 0 s ->
  update_A Xr Xr_indptr Xr_indices dimA dimB k l2 l1 0 npass ncores s = Some s' ->
  ia < dimA -> Xr_indptr !!! (ia + 1) = Xr_indptr !!! ia ->
  all_nonneg (st_B s) -> (0 <= st_step_size s)%Q -> (0 <= l2)%Q ->
  (forall j, j < k -> (0 <= st_A s !!! (ia * k + j)%nat)%Q) ->
  forall j, j < k ->
    (0 <= st_A s' !!! (ia * k + j)%nat)%Q /\
    (st_A s' !!! (ia * k + j)%nat <= st_A s !!! (ia * k + j)%nat)%Q.
Proof.
  intros Hwf Hup Hia Hempty HB Hs Hl2 HA0 j Hj.
  pose proof (update_A_pgd_spec _ _ _ _ _ _ _ _ _ _ _ _ Hwf Hup ia Hia j Hj) as E.
  rewrite lookup_total_drop in E.
  replace (Xr_indptr !!! (ia + 1) - Xr_indptr !!! ia) with 0 in E by lia.
  assert (0 <= l1_applied l1)%Q as Hl1.
  { unfold l1_applied, Qltb. destruct (Qle_bool l1 0) eqn:El; cbn; [apply Qle_refl|].
    apply Qlt_le_weak, Qnot_le_lt. intros H. apply Qle_bool_iff in H. congruence. }
  assert (forall m j, j < k ->
    (0 <= Nat.iter m
            (spec_pgd_pass k (st_B s) dimB (drop (Xr_indptr !!! ia) Xr)
               (drop (Xr_indptr !!! ia) Xr_indices) 0
               (st_step_size s) (l1_applied l1) l2)
            (drop (ia * k) (st_A s)) !!! j)%Q /\
    (Nat.iter m
            (spec_pgd_pass k (st_B s) dimB (drop (Xr_indptr !!! ia) Xr)
               (drop (Xr_indptr !!! ia) Xr_indices) 0
               (st_step_size s) (l1_applied l1) l2)
            (drop (ia * k) (st_A s)) !!! j
     <= drop (ia * k) (st_A s) !!! j)%Q) as Hiter.
  { induction m as [|m IH]; intros i Hi.
    - cbn [Nat.iter nat_rect]. rewrite lookup_total_drop.
      split; [apply HA0, Hi | apply Qle_refl].
    - rewrite Nat.iter_succ.
      apply spec_pgd_pass_unobserved; try assumption. }
  destruct (Hiter npass j Hj) as [H0 H1].
  rewrite lookup_total_drop in H1. rewrite E. split; assumption.
Qed.

(** ** No pass, no change *)

Lemma pgd_iteration_no_pass (A B Xr : arr) (Xr_indptr Xr_indices : list nat)
    (dimA k : nat) (cnst_div : Q) (cnst_sum : arr) (step_size : Q) (ncores : Z)
    (buf : arr) :
  pgd_iteration A B Xr Xr_indptr Xr_indices dimA k cnst_div cnst_sum step_size
    0 ncores buf = Some (A, buf).
Proof.
  unfold pgd_iteration. induction dimA as [|m IH]; [reflexivity|].
  cbn [for_loopM] in IH |- *. rewrite IH. reflexivity.
Qed.

Lemma fulliter_no_pass
    (Xr : arr) (Xr_indptr Xr_indices : list nat)
    (Xc : arr) (Xc_indptr Xc_indices : list nat)
    (dimA dimB k : nat) (l2 l1 : Q) (ncores : Z) (s s' : loop_state) :
  fulliter Xr Xr_indptr Xr_indices Xc Xc_indptr Xc_indices dimA dimB k l2 l1
    0 0 ncores s = Some s' ->
  st_A s' = st_A s /\ st_B s' = st_B s /\
  ~ (1 + 2 * l2 * st_step_size s == 0)%Q /\
  st_step_size s' = (st_step_size s * (1 # 2))%Q.
Proof.
  unfold fulliter, update_A, update_B. cbn [Z.eqb negb].
  destruct (ddiv 1 _) as [cd|] eqn:Ecd; [|discriminate].
  cbn [mbind option_bind]. rewrite !pgd_iteration_no_pass.
  cbn. rewrite pgd_iteration_no_pass. cbn. intros [= <-]. cbn.
  apply ddiv_Some in Ecd. tauto.
Qed.

(** With the proximal-gradient solver and [npass = 0] a run of any
    number of iterations returns [A] and [B] as they were given, also
    when they hold negative entries: the only thing the iterations do is
    halve the step size. *)
Theorem no_pass_no_change
    (A Xr : arr) (Xr_indptr Xr_indices : list nat)
    (B Xc : arr) (Xc_indptr Xc_indices : list nat)
    (dimA dimB k : nat) (l2 l1 : Q) (step_size : Q) (numiter : nat) (ncores : Z)
    (m_cnst_sum m_master : malloc_outcome) (m_workers : list malloc_outcome)
    (r : result) :
  run_poismf A Xr Xr_indptr Xr_indices B Xc Xc_indptr Xc_indices dimA dimB k
    l2 l1 0 step_size numiter 0 ncores m_cnst_sum m_master m_workers = Some r ->
  outA r = A /\ outB r = B.
Proof.
  unfold run_poismf.
  destruct (is_null _ || existsb _ _ || is_null _).
  - intros [= <-]. split; reflexivity.
  - destruct (malloc k m_cnst_sum) as [c|]; [|discriminate]. cbn [mbind option_bind].
    destruct (malloc _ m_master) as [b|]; [|discriminate]. cbn [mbind option_bind].
    destruct (run_loop _ _ _ _ _ _ _ _ _ _ _ _ _ _ _ _) as [s|] eqn:Es; [|discriminate].
    cbn. intros [= <-]. cbn.
    revert s Es. induction numiter as [|n IH]; intros s Es.
    + cbn in Es. injection Es as <-. split; reflexivity.
    + rewrite run_loop_S in Es.
      destruct (run_loop _ _ _ _ _ _ _ _ _ _ _ _ _ _ n _) as [t|]; [|discriminate].
      cbn in Es. apply fulliter_no_pass in Es. destruct Es as (-> & -> & _).
      apply IH. reflexivity.
Qed.

(** ** Allocation and release on every path (lines 267-285, 330-335) *)

Lemma existsb_null_none (size : nat) (ms : list malloc_outcome) :
  existsb is_null (malloc size <$> ms) = false -> MallocFail ∉ ms.
Proof.
  intros H Hin. apply existsb_null_fail with (size := size) in Hin. congruence.
Qed.

(** Whatever the allocations do and however the run ends, it frees every
    block it obtained. *)
Theorem run_poismf_frees_everything
    (A Xr : arr) (Xr_indptr Xr_indices : list nat)
    (B Xc : arr) (Xc_indptr Xc_indices : list nat)
    (dimA dimB k : nat) (l2 l1 : Q) (use_cg : Z) (step_size : Q)
    (numiter npass : nat) (ncores : Z)
    (m_cnst_sum m_master : malloc_outcome) (m_workers : list malloc_outcome)
    (r : result) :
  run_poismf A Xr Xr_indptr Xr_indices B Xc Xc_indptr Xc_indices dimA dimB k
    l2 l1 use_cg step_size numiter npass ncores m_cnst_sum m_master m_workers
    = Some r ->
  live r = [].
Proof.
  unfold run_poismf. rewrite heap_balanced.
  destruct (is_null _ || existsb _ _ || is_null _).
  - intros [= <-]. reflexivity.
  - destruct (malloc k m_cnst_sum) as [c|]; [|discriminate]. cbn [mbind option_bind].
    destruct (malloc _ m_master) as [b|]; [|discriminate]. cbn [mbind option_bind].
    destruct (run_loop _ _ _ _ _ _ _ _ _ _ _ _ _ _ _ _) as [s|]; [|discriminate].
    cbn. intros [= <-]. reflexivity.
Qed.

(** The run prints the diagnostic, once, exactly when one of the
    allocations failed; otherwise it prints nothing. *)
Theorem diagnostic_iff_allocation_failure
    (A Xr : arr) (Xr_indptr Xr_indices : list nat)
    (B Xc : arr) (Xc_indptr Xc_indices : list nat)
    (dimA dimB k : nat) (l2 l1 : Q) (use_cg : Z) (step_size : Q)
    (numiter npass : nat) (ncores : Z)
    (m_cnst_sum m_master : malloc_outcome) (m_workers : list malloc_outcome)
    (r : result) :
  run_poismf A Xr Xr_indptr Xr_indices B Xc Xc_indptr Xc_indices dimA dimB k
    l2 l1 use_cg step_size numiter npass ncores m_cnst_sum m_master m_workers
    = Some r ->
  (stderr r = [alloc_error_message] <->
   m_cnst_sum = MallocFail \/ m_master = MallocFail \/ MallocFail ∈ m_workers) /\
  (stderr r = [] <->
   m_cnst_sum <> MallocFail /\ m_master <> MallocFail /\ MallocFail ∉ m_workers).
Proof.
  unfold run_poismf.
  destruct (is_null _ || existsb _ _ || is_null _) eqn:E.
  - intros [= <-]. cbn [stderr].
    assert (m_cnst_sum = MallocFail \/ m_master = MallocFail \/ MallocFail ∈ m_workers)
      as Hfail.
    { destruct m_cnst_sum; [tauto|]. destruct m_master; [tauto|].
      cbn in E. rewrite orb_false_r in E. right. right.
      apply existsb_exists in E. destruct E as (p & Hin & Hp).
      apply list_elem_of_In, list_elem_of_fmap in Hin. destruct Hin as (m & -> & Hm).
      destruct m; [exact Hm | discriminate]. }
    split; split; try tauto; try discriminate.
  - destruct m_cnst_sum as [|g1], m_master as [|g2]; cbn in E |- *;
      try discriminate; try (rewrite orb_true_r in E; discriminate).
    rewrite orb_false_r in E. apply existsb_null_none in E.
    destruct (run_loop _ _ _ _ _ _ _ _ _ _ _ _ _ _ _ _) as [s|]; [|discriminate].
    cbn. intros [= <-]. cbn [stderr].
    split; split; try discriminate; try tauto.
    + intros [H|[H|H]]; [discriminate | discriminate | contradiction].
    + intros _. split; [discriminate|]. split; [discriminate | exact E].
Qed.

(** ** What the allocated buffers hold does not matter *)

Lemma for_loopM_rel {S T : Type} (R : S -> T -> Prop) (n : nat)
    (b1 : nat -> S -> option S) (b2 : nat -> T -> option T) (s : S) (t : T) :
  R s t ->
  (forall i s t, i < n -> R s t -> opt_rel R (b1 i s) (b2 i t)) ->
  opt_rel R (for_loopM n b1 s) (for_loopM n b2 t).
Proof.
  intros H0 Hstep. induction n as [|m IH]; cbn [for_loopM]; [exact H0|].
  assert (opt_rel R (for_loopM m b1 s) (for_loopM m b2 t)) as H.
  { apply IH. intros i u v Hi. apply Hstep. lia. }
  destruct (for_loopM m b1 s) as [u|], (for_loopM m b2 t) as [v|];
    cbn in H |- *; try contradiction; [|exact I].
  apply Hstep; [lia | exact H].
Qed.

Lemma memset_zero_same (o1 o2 : arr) (n : nat) :
  length o1 = n -> length o2 = n -> memset_zero o1 n = memset_zero o2 n.
Proof.
  intros H1 H2. apply arr_ext.
  - rewrite !memset_zero_length. congruence.
  - intros j Hj. rewrite memset_zero_length in Hj.
    rewrite !memset_zero_lookup, !decide_True by lia. reflexivity.
Qed.

Lemma sum_by_cols_same (c1 c2 M : arr) (nrow ncol : nat) (ncores : Z) :
  length c1 = ncol -> length c2 = ncol ->
  sum_by_cols c1 M nrow ncol ncores = sum_by_cols c2 M nrow ncol ncores.
Proof.
  intros H1 H2. apply arr_ext.
  - rewrite !sum_by_cols_length. congruence.
  - intros j Hj. rewrite sum_by_cols_length in Hj.
    rewrite !sum_by_cols_lookup by lia. reflexivity.
Qed.

Lemma pgd_pass_same_buf (B Xr : arr) (Xr_indptr Xr_indices : list nat) (k : nat)
    (cnst_div : Q) (cnst_sum : arr) (step_size : Q) (ia nnz : nat) (A b1 b2 : arr) :
  length b1 = k -> length b2 = k ->
  pgd_pass B Xr Xr_indptr Xr_indices k cnst_div cnst_sum step_size ia nnz (A, b1) =
  pgd_pass B Xr Xr_indptr Xr_indices k cnst_div cnst_sum step_size ia nnz (A, b2).
Proof.
  intros H1 H2. unfold pgd_pass, calc_grad_pgd.
  rewrite (memset_zero_same b1 b2 k H1 H2). reflexivity.
Qed.

Lemma pgd_pass_buf_length (B Xr : arr) (Xr_indptr Xr_indices : list nat) (k : nat)
    (cnst_div : Q) (cnst_sum : arr) (step_size : Q) (ia nnz : nat)
    (A buf A' buf' : arr) :
  k <= length buf ->
  pgd_pass B Xr Xr_indptr Xr_indices k cnst_div cnst_sum step_size ia nnz (A, buf)
    = Some (A', buf') ->
  length buf' = length buf.
Proof.
  intros Hk. unfold pgd_pass.
  destruct (calc_grad_pgd _ _ _ _ _ _ _) as [g|] eqn:Eg; [|discriminate].
  cbn. intros [= _ <-]. apply calc_grad_pgd_inv in Eg; [apply Eg | exact Hk].
Qed.

Lemma pgd_iteration_same_buf (A B Xr : arr) (Xr_indptr Xr_indices : list nat)
    (dimA k : nat) (cnst_div : Q) (cnst_sum : arr) (step_size : Q)
    (npass : nat) (ncores : Z) (b1 b2 : arr) :
  length b1 = k -> length b2 = k ->
  opt_rel (fun r1 r2 : arr * arr =>
             r1.1 = r2.1 /\ length r1.2 = k /\ length r2.2 = k)
    (pgd_iteration A B Xr Xr_indptr Xr_indices dimA k cnst_div cnst_sum step_size
       npass ncores b1)
    (pgd_iteration A B Xr Xr_indptr Xr_indices dimA k cnst_div cnst_sum step_size
       npass ncores b2).
Proof.
  intros H1 H2. unfold pgd_iteration.
  apply for_loopM_rel; [cbn; auto|].
  intros ia s t _ Hst. cbv zeta.
  apply for_loopM_rel; [exact Hst|].
  intros p [A1 c1] [A2 c2] _ (HA & Hc1 & Hc2). cbn in HA, Hc1, Hc2. subst A2.
  rewrite (pgd_pass_same_buf _ _ _ _ _ _ _ _ _ _ A1 c1 c2 Hc1 Hc2).
  destruct (pgd_pass _ _ _ _ _ _ _ _ _ _ (A1, c2)) as [[A' c']|] eqn:E; cbn; [|exact I].
  apply pgd_pass_buf_length in E; [|lia].
  split; [reflexivity|]. split; congruence.
Qed.

Lemma update_A_same_run (Xr : arr) (Xr_indptr Xr_indices : list nat)
    (dimA dimB k : nat) (l2 l1 : Q) (use_cg : Z) (npass : nat) (ncores : Z)
    (s t : loop_state) :
  same_run_state k use_cg s t ->
  opt_rel (fun s' t' => same_run_state k use_cg s' t' /\ st_cnst_div s' = st_cnst_div t')
    (update_A Xr Xr_indptr Xr_indices dimA dimB k l2 l1 use_cg npass ncores s)
    (update_A Xr Xr_indptr Xr_indices dimA dimB k l2 l1 use_cg npass ncores t).
Proof.
  unfold same_run_state.
  intros (HA & HB & Hst & Hneg & Hc1 & Hc2 & Hbuf). unfold update_A.
  rewrite HA, HB, Hst, Hneg.
  rewrite (sum_by_cols_same (st_cnst_sum s) (st_cnst_sum t) _ _ _ _ Hc1 Hc2).
  destruct (Z.eqb_spec use_cg 0) as [Hcg|Hcg]; cbn [negb].
  - destruct (ddiv 1 _) as [cd|]; cbn [mbind option_bind]; [|exact I].
    destruct Hbuf as [Hb1 Hb2].
    pose proof (pgd_iteration_same_buf (st_A t) (st_B t) Xr Xr_indptr Xr_indices
      dimA k cd
      (cblas_dscal k (st_neg_step_sz t)
         (add_l1 k l1 (sum_by_cols (st_cnst_sum t) (st_B t) dimB k ncores)) 0)
      (st_step_size t) npass ncores _ _ Hb1 Hb2) as H.
    destruct (pgd_iteration _ _ _ _ _ _ _ _ _ _ _ _ (st_buffer_arr s)) as [r1|],
             (pgd_iteration _ _ _ _ _ _ _ _ _ _ _ _ (st_buffer_arr t)) as [r2|];
      cbn in H |- *; try contradiction; [|exact I].
    destruct H as (Hr & Hl1 & Hl2).
    rewrite cblas_dscal_length, add_l1_length, sum_by_cols_length. tauto.
  - rewrite Hbuf.
    destruct (cg_iteration _ _ _ _ _ _ _ _ _ _ _ _) as [r|]; cbn; [|exact I].
    rewrite add_l1_length, sum_by_cols_length.
    destruct (Z.eqb_spec use_cg 0) as [|_]; [contradiction|]. tauto.
Qed.

Lemma update_B_same_run (Xr Xc : arr) (Xc_indptr Xc_indices : list nat)
    (dimA dimB k : nat) (l2 l1 : Q) (use_cg : Z) (npass : nat) (ncores : Z)
    (s t : loop_state) :
  same_run_state k use_cg s t -> st_cnst_div s = st_cnst_div t ->
  opt_rel (same_run_state k use_cg)
    (update_B Xr Xc Xc_indptr Xc_indices dimA dimB k l2 l1 use_cg npass ncores s)
    (update_B Xr Xc Xc_indptr Xc_indices dimA dimB k l2 l1 use_cg npass ncores t).
Proof.
  unfold same_run_state.
  intros (HA & HB & Hst & Hneg & Hc1 & Hc2 & Hbuf) Hcd. unfold update_B.
  rewrite HA, HB, Hst, Hneg, Hcd.
  rewrite (sum_by_cols_same (st_cnst_sum s) (st_cnst_sum t) _ _ _ _ Hc1 Hc2).
  destruct (Z.eqb_spec use_cg 0) as [Hcg|Hcg]; cbn [negb].
  - destruct (st_cnst_div t) as [cd|]; cbn [mbind option_bind]; [|exact I].
    destruct Hbuf as [Hb1 Hb2].
    pose proof (pgd_iteration_same_buf (st_B t) (st_A t) Xc Xc_indptr Xc_indices
      dimB k cd
      (cblas_dscal k (st_neg_step_sz t)
         (add_l1 k l1 (sum_by_cols (st_cnst_sum t) (st_A t) dimA k ncores)) 0)
      (st_step_size t) npass ncores _ _ Hb1 Hb2) as H.
    destruct (pgd_iteration _ _ _ _ _ _ _ _ _ _ _ _ (st_buffer_arr s)) as [r1|],
             (pgd_iteration _ _ _ _ _ _ _ _ _ _ _ _ (st_buffer_arr t)) as [r2|];
      cbn in H |- *; try contradiction; [|exact I].
    destruct H as (Hr & Hl1 & Hl2).
    rewrite cblas_dscal_length, add_l1_length, sum_by_cols_length. tauto.
  - rewrite Hbuf.
    destruct (cg_iteration _ _ _ _ _ _ _ _ _ _ _ _) as [r|]; cbn; [|exact I].
    rewrite add_l1_length, sum_by_cols_length.
    destruct (Z.eqb_spec use_cg 0) as [|_]; [contradiction|]. tauto.
Qed.

Lemma run_loop_same_run (Xr : arr) (Xr_indptr Xr_indices : list nat)
    (Xc : arr) (Xc_indptr Xc_indices : list nat)
    (dimA dimB k : nat) (l2 l1 : Q) (use_cg : Z) (npass : nat) (ncores : Z)
    (n : nat) (s t : loop_state) :
  same_run_state k use_cg s t ->
  opt_rel (same_run_state k use_cg)
    (run_loop Xr Xr_indptr Xr_indices Xc Xc_indptr Xc_indices dimA dimB k l2 l1
       use_cg npass ncores n s)
    (run_loop Xr Xr_indptr Xr_indices Xc Xc_indptr Xc_indices dimA dimB k l2 l1
       use_cg npass ncores n t).
Proof.
  intros Hst. unfold run_loop. apply for_loopM_rel; [exact Hst|].
  intros _ u v _ Huv. unfold fulliter.
  pose proof (update_A_same_run Xr Xr_indptr Xr_indices dimA dimB k l2 l1 use_cg
                npass ncores u v Huv) as HA.
  destruct (update_A _ _ _ _ _ _ _ _ _ _ _ u) as [u1|],
           (update_A _ _ _ _ _ _ _ _ _ _ _ v) as [v1|];
    cbn in HA |- *; try contradiction; [|exact I].
  apply update_B_same_run; tauto.
Qed.

Lemma loop_init_same_run (A B : arr) (step_size : Q) (k : nat) (use_cg : Z)
    (c1 c2 b1 b2 : arr) :
  length c1 = k -> length c2 = k ->
  (if (use_cg =? 0)%Z then length b1 = k /\ length b2 = k else b1 = b2) ->
  same_run_state k use_cg (loop_init A B step_size c1 b1) (loop_init A B step_size c2 b2).
Proof. intros H1 H2 H3. unfold same_run_state, loop_init. cbn. tauto. Qed.

(** The factors computed by the proximal gradient method do not depend on
    what the freshly allocated [cnst_sum] and scratch buffers hold: both
    are overwritten before they are read. With either method the result
    does not depend on what the fresh [cnst_sum] holds. *)
Theorem fresh_memory_is_overwritten
    (A Xr : arr) (Xr_indptr Xr_indices : list nat)
    (B Xc : arr) (Xc_indptr Xc_indices : list nat)
    (dimA dimB k : nat) (l2 l1 : Q) (use_cg : Z) (step_size : Q)
    (numiter npass : nat) (ncores : Z)
    (g1 g1' g2 g2' : nat -> Q) (m_master : malloc_outcome)
    (m_workers : list malloc_outcome) :
  run_poismf A Xr Xr_indptr Xr_indices B Xc Xc_indptr Xc_indices dimA dimB k
    l2 l1 0 step_size numiter npass ncores (MallocOk g1) (MallocOk g2) m_workers =
  run_poismf A Xr Xr_indptr Xr_indices B Xc Xc_indptr Xc_indices dimA dimB k
    l2 l1 0 step_size numiter npass ncores (MallocOk g1') (MallocOk g2') m_workers
  /\
  run_poismf A Xr Xr_indptr Xr_indices B Xc Xc_indptr Xc_indices dimA dimB k
    l2 l1 use_cg step_size numiter npass ncores (MallocOk g1) m_master m_workers =
  run_poismf A Xr Xr_indptr Xr_indices B Xc Xc_indptr Xc_indices dimA dimB k
    l2 l1 use_cg step_size numiter npass ncores (MallocOk g1') m_master m_workers.
Proof.
  assert (forall (u : Z) (c1 c2 b1 b2 : arr),
    same_run_state k u (loop_init A B step_size c1 b1) (loop_init A B step_size c2 b2) ->
    (s ← run_loop Xr Xr_indptr Xr_indices Xc Xc_indptr Xc_indices dimA dimB k
           l2 l1 u npass ncores numiter (loop_init A B step_size c1 b1);
     Some {| outA := st_A s; outB := st_B s; stderr := []; live := [] |}) =
    (s ← run_loop Xr Xr_indptr Xr_indices Xc Xc_indptr Xc_indices dimA dimB k
           l2 l1 u npass ncores numiter (loop_init A B step_size c2 b2);
     Some {| outA := st_A s; outB := st_B s; stderr := []; live := [] |})) as Hrun.
  { intros u c1 c2 b1 b2 Hst.
    apply (run_loop_same_run Xr Xr_indptr Xr_indices Xc Xc_indptr Xc_indices
             dimA dimB k l2 l1 u npass ncores numiter) in Hst.
    destruct (run_loop _ _ _ _ _ _ _ _ _ _ _ _ _ _ _ (loop_init A B step_size c1 b1))
      as [s|],
      (run_loop _ _ _ _ _ _ _ _ _ _ _ _ _ _ _ (loop_init A B step_size c2 b2))
      as [t|]; cbn in Hst |- *; try contradiction; [|reflexivity].
    destruct Hst as (-> & -> & _). reflexivity. }
  split.
  - unfold run_poismf. rewrite !heap_balanced. cbn [malloc is_null orb negb Z.eqb].
    rewrite !orb_false_r.
    destruct (existsb _ _); [reflexivity|]. cbn [mbind option_bind].
    apply Hrun. apply loop_init_same_run; cbn [Z.eqb];
      rewrite ?length_fmap, ?length_seq; auto.
  - unfold run_poismf. rewrite !heap_balanced.
    destruct m_master as [|g]; cbn [malloc is_null orb]; [reflexivity|].
    rewrite !orb_false_r.
    destruct (existsb _ _); [reflexivity|]. cbn [mbind option_bind].
    apply Hrun. apply loop_init_same_run; rewrite ?length_fmap, ?length_seq; auto.
    destruct (use_cg =? 0)%Z; cbn [negb]; [auto | reflexivity].
Qed.

(** ** Stopping and resuming (lines 294-328) *)

Lemma run_loop_add (Xr : arr) (Xr_indptr Xr_indices : list nat)
    (Xc : arr) (Xc_indptr Xc_indices : list nat)
    (dimA dimB k : nat) (l2 l1 : Q) (use_cg : Z) (npass : nat) (ncores : Z)
    (n m : nat) (s : loop_state) :
  run_loop Xr Xr_indptr Xr_indices Xc Xc_indptr Xc_indices dimA dimB k l2 l1
    use_cg npass ncores (n + m) s =
  s' ← run_loop Xr Xr_indptr Xr_indices Xc Xc_indptr Xc_indices dimA dimB k l2 l1
         use_cg npass ncores n s;
  run_loop Xr Xr_indptr Xr_indices Xc Xc_indptr Xc_indices dimA dimB k l2 l1
    use_cg npass ncores m s'.
Proof.
  induction m as [|m IH].
  - rewrite Nat.add_0_r.
    destruct (run_loop _ _ _ _ _ _ _ _ _ _ _ _ _ _ n s); reflexivity.
  - rewrite Nat.add_succ_r, run_loop_S, IH.
    destruct (run_loop _ _ _ _ _ _ _ _ _ _ _ _ _ _ n s) as [u|]; reflexivity.
Qed.

Lemma fulliter_pgd_step (Xr : arr) (Xr_indptr Xr_indices : list nat)
    (Xc : arr) (Xc_indptr Xc_indices : list nat)
    (dimA dimB k : nat) (l2 l1 : Q) (npass : nat) (ncores : Z)
    (s s' : loop_state) :
  fulliter Xr Xr_indptr Xr_indices Xc Xc_indptr Xc_indices dimA dimB k l2 l1
    0 npass ncores s = Some s' ->
  st_step_size s' = (st_step_size s * (1 # 2))%Q /\
  st_neg_step_sz s' = (- st_step_size s')%Q.
Proof.
  unfold fulliter, update_A, update_B. cbn [Z.eqb negb].
  destruct (ddiv 1 _) as [cd|]; cbn [mbind option_bind]; [|discriminate].
  destruct (pgd_iteration _ _ _ _ _ _ _ _ _ _ _ _ _) as [r|];
    cbn [mbind option_bind]; [|discriminate].
  cbn [mbind option_bind
       st_A st_B st_step_size st_neg_step_sz st_cnst_div st_cnst_sum st_buffer_arr].
  destruct (pgd_iteration _ _ _ _ _ _ _ _ _ _ _ _ _) as [r'|];
    cbn [mbind option_bind]; [|discriminate].
  intros [= <-]. cbn. split; reflexivity.
Qed.

Lemma run_loop_pgd_step (Xr : arr) (Xr_indptr Xr_indices : list nat)
    (Xc : arr) (Xc_indptr Xc_indices : list nat)
    (dimA dimB k : nat) (l2 l1 : Q) (npass : nat) (ncores : Z)
    (n : nat) (s s' : loop_state) :
  st_neg_step_sz s = (- st_step_size s)%Q ->
  run_loop Xr Xr_indptr Xr_indices Xc Xc_indptr Xc_indices dimA dimB k l2 l1
    0 npass ncores n s = Some s' ->
  st_step_size s' = Nat.iter n (fun y => (y * (1 # 2))%Q) (st_step_size s) /\
  st_neg_step_sz s' = (- st_step_size s')%Q.
Proof.
  intros Hneg. revert s'. induction n as [|n IH]; intros s'.
  - unfold run_loop. cbn [for_loopM]. intros [= <-]. cbn. auto.
  - rewrite run_loop_S.
    destruct (run_loop _ _ _ _ _ _ _ _ _ _ _ _ _ _ n s) as [u|]; [|discriminate].
    cbn [mbind option_bind]. intros E. apply fulliter_pgd_step in E.
    destruct (IH u eq_refl) as [Hu _]. destruct E as [E1 E2].
    split; [|exact E2]. rewrite E1, Hu. reflexivity.
Qed.

Lemma run_poismf_allocated
    (A Xr : arr) (Xr_indptr Xr_indices : list nat)
    (B Xc : arr) (Xc_indptr Xc_indices : list nat)
    (dimA dimB k : nat) (l2 l1 : Q) (use_cg : Z) (step_size : Q)
    (numiter npass : nat) (ncores : Z)
    (g1 g2 : nat -> Q) (m_workers : list malloc_outcome) :
  MallocFail ∉ m_workers ->
  run_poismf A Xr Xr_indptr Xr_indices B Xc Xc_indptr Xc_indices dimA dimB k
    l2 l1 use_cg step_size numiter npass ncores (MallocOk g1) (MallocOk g2) m_workers =
  s ← run_loop Xr Xr_indptr Xr_indices Xc Xc_indptr Xc_indices dimA dimB k
        l2 l1 use_cg npass ncores numiter
        (loop_init A B step_size (g1 <$> seq 0 k)
           (g2 <$> seq 0 (if negb (use_cg =? 0)%Z then k * 4 else k)));
  Some {| outA := st_A s; outB := st_B s; stderr := []; live := [] |}.
Proof.
  intros Hw. unfold run_poismf. rewrite heap_balanced.
  cbn [malloc is_null orb]. rewrite orb_false_r.
  destruct (existsb _ _) eqn:E; [|reflexivity].
  apply existsb_exists in E. destruct E as (p & Hin & Hp).
  apply list_elem_of_In, list_elem_of_fmap in Hin. destruct Hin as (m & -> & Hm).
  destruct m; [contradiction | discriminate].
Qed.

(** With the proximal gradient method, running [n + m] iterations is the
    same as running [n] iterations, and then calling the function again
    on the factors obtained, for [m] iterations, with the step size the
    first call had reached, whatever the second call's fresh buffers
    hold. *)
Theorem pgd_run_can_be_resumed
    (A Xr : arr) (Xr_indptr Xr_indices : list nat)
    (B Xc : arr) (Xc_indptr Xc_indices : list nat)
    (dimA dimB k : nat) (l2 l1 : Q) (step_size : Q)
    (n m npass : nat) (ncores : Z)
    (g1 g2 g1' g2' : nat -> Q) (m_workers : list malloc_outcome) :
  MallocFail ∉ m_workers ->
  run_poismf A Xr Xr_indptr Xr_indices B Xc Xc_indptr Xc_indices dimA dimB k
    l2 l1 0 step_size (n + m) npass ncores (MallocOk g1) (MallocOk g2) m_workers =
  r ← run_poismf A Xr Xr_indptr Xr_indices B Xc Xc_indptr Xc_indices dimA dimB k
        l2 l1 0 step_size n npass ncores (MallocOk g1) (MallocOk g2) m_workers;
  run_poismf (outA r) Xr Xr_indptr Xr_indices (outB r) Xc Xc_indptr Xc_indices
    dimA dimB k l2 l1 0 (Nat.iter n (fun y => (y * (1 # 2))%Q) step_size)
    m npass ncores (MallocOk g1') (MallocOk g2') m_workers.
Proof.
  intros Hw. rewrite (run_poismf_allocated A) by exact Hw.
  rewrite (run_poismf_allocated A _ _ _ _ _ _ _ _ _ _ _ _ _ _ n) by exact Hw.
  rewrite run_loop_add. cbn [Z.eqb negb].
  set (s0 := loop_init A B step_size (g1 <$> seq 0 k) (g2 <$> seq 0 k)).
  assert (same_run_state k 0 s0 s0) as H0.
  { apply loop_init_same_run; cbn [Z.eqb]; rewrite ?length_fmap, ?length_seq; auto. }
  apply (run_loop_same_run Xr Xr_indptr Xr_indices Xc Xc_indptr Xc_indices
           dimA dimB k l2 l1 0 npass ncores n) in H0.
  destruct (run_loop _ _ _ _ _ _ _ _ _ _ _ _ _ _ n s0) as [u|] eqn:Eu;
    cbn [mbind option_bind]; [|reflexivity].
  cbn [opt_rel] in H0. cbn [outA outB].
  rewrite run_poismf_allocated by exact Hw. cbn [Z.eqb negb].
  apply run_loop_pgd_step in Eu; [|reflexivity]. destruct Eu as [Est Eneg].
  assert (same_run_state k 0 u
            (loop_init (st_A u) (st_B u)
               (Nat.iter n (fun y => (y * (1 # 2))%Q) step_size)
               (g1' <$> seq 0 k) (g2' <$> seq 0 k))) as Hu.
  { destruct H0 as (_ & _ & _ & _ & Hc & _ & Hb & _).
    unfold same_run_state, loop_init. cbn.
    rewrite !length_fmap, !length_seq. rewrite Eneg, Est. cbn. tauto. }
  apply (run_loop_same_run Xr Xr_indptr Xr_indices Xc Xc_indptr Xc_indices
           dimA dimB k l2 l1 0 npass ncores m) in Hu.
  destruct (run_loop _ _ _ _ _ _ _ _ _ _ _ _ _ _ m u) as [v|],
           (run_loop _ _ _ _ _ _ _ _ _ _ _ _ _ _ m _) as [w|];
    cbn in Hu |- *; try contradiction; [|reflexivity].
  destruct Hu as (-> & -> & _). reflexivity.
Qed.

End Poismf.

(** * Examples on concrete inputs *)

(** C1, at an input where the claim fails.  On the count matrix
    [[1 2] [3 0]] with [A = B = [[1] [1]]], [k = 1], [l2_reg = 1/2], the
    conjugate-gradient solver and one outer iteration, [run_poismf]
    returns [A = [1; 1]] and [B = [1; 1]]: its update of [B] reads the
    values [1 2 | 3] of the row-compressed view under the column
    pointers.  The update of [A], run after the same first half with the
    roles exchanged and the column-compressed view [1 3 | 2], gives
    [B = [2; 0]]; run with the row-compressed values it gives what
    [run_poismf] returns. *)
Theorem C1_cg_update_of_B_reads_row_values :
  let after_A :=
    update_A log_stub descent_minimizer ex_Xr ex_Xr_indptr ex_Xr_indices
      2 2 1 (1 # 2) 0 1 1 1 (loop_init [1; 1]%Q [1; 1]%Q 1 [0%Q] [0; 0; 0; 0]%Q) in
  (fun r => (Qred <$> outA r, Qred <$> outB r)) <$>
    run_poismf log_stub descent_minimizer
      [1; 1]%Q ex_Xr ex_Xr_indptr ex_Xr_indices
      [1; 1]%Q ex_Xc ex_Xc_indptr ex_Xc_indices
      2 2 1 (1 # 2) 0 1 1 1 1 1 zeros zeros []
  = Some ([1; 1]%Q, [1; 1]%Q) /\
  (s ← after_A;
   (fun s' => (Qred <$> st_B s', Qred <$> st_A s')) <$>
     update_A log_stub descent_minimizer ex_Xc ex_Xc_indptr ex_Xc_indices
       2 2 1 (1 # 2) 0 1 1 1 (swap_roles s))
  = Some ([1; 1]%Q, [2; 0]%Q) /\
  (s ← after_A;
   (fun s' => (Qred <$> st_B s', Qred <$> st_A s')) <$>
     update_A log_stub descent_minimizer ex_Xr ex_Xc_indptr ex_Xc_indices
       2 2 1 (1 # 2) 0 1 1 1 (swap_roles s))
  = Some ([1; 1]%Q, [1; 1]%Q).
Proof.
  cbv zeta. split; [|split].
  - vm_compute. reflexivity.
  - vm_compute. reflexivity.
  - vm_compute. reflexivity.
Qed.

(** The gradient and the objective of [x = [1; 2]] against one
    observation whose prediction is 4, with [y − 2] standing for
    [log y]: entry 0 of the gradient is [3 + 2·2·1·1 − (4/4)·2], not
    [3 + 2·1·1 − (4/4)·2], and the objective is
    [(3·1 + 2·2) + 1·(1·1 + 2·2) − 4·(4 − 2)]. *)
Lemma C2_witness :
  let x := [1; 2]%Q in
  let data := {| F := [1; 1; 2; 1]%Q; Fsum := [3; 2]%Q; X := [4%Q]; X_ind := [1];
                 nnz_this := 1; l2_reg := 1 |} in
  exists g f,
    calc_grad_single x 2 [0; 0]%Q data = Some g /\
    calc_fun_single (fun y => (y - 2)%Q) x 2 data = Some f /\
    Qeq f ((3 * 1 + 2 * 2) + 1 * (1 * 1 + 2 * 2) - 4 * (4 - 2)) /\
    Qeq (g !!! 0) (3 + 2 * 2 * 1 * 1 - 4 / 4 * 2) /\
    ~ Qeq (g !!! 0) (3 + 2 * 1 * 1 - 4 / 4 * 2).
Proof.
  intros x data.
  destruct (calc_grad_single x 2 [0; 0]%Q data) as [g|] eqn:Eg;
    [|vm_compute in Eg; discriminate].
  destruct (C2_gradient_l2_factor (fun y => (y - 2)%Q) x [0; 0]%Q g 2 data 0)
    as (Hg & Hdef & Hval & _ & _ & Hne).
  - cbn. lia.
  - lia.
  - cbn. lia.
  - exact Eg.
  - destruct (proj2 Hdef) as [f Hf].
    { intros i Hi. change (i < 1) in Hi. assert (i = 0) as -> by lia. reflexivity. }
    exists g, f. split; [reflexivity|]. split; [exact Hf|]. split; [|split].
    + rewrite (Hval f Hf). vm_compute. reflexivity.
    + rewrite Hg. vm_compute. reflexivity.
    + intros H. apply Hne.
      * reflexivity.
      * lia.
      * discriminate.
      * rewrite H. vm_compute. reflexivity.
Defined.

(** C3 as first stated fails with the proximal-gradient solver and
    [npass = 0]: the entry [−1] of [A] is still there after the one outer
    iteration of the run. *)
Lemma C3_counterexample :
  exists r,
    run_poismf log_stub idle_minimizer [(-1)%Q] [1%Q] [0; 1] [0] [1%Q] [1%Q] [0; 1]
        [0] 1 1 1 0 0 0 1 1 0 1 zeros zeros [] = Some r /\
    ~ all_nonneg (outA r).
Proof.
  eexists. split; [vm_compute; reflexivity|].
  cbn. intros H. apply Forall_inv in H. revert H. apply Qlt_not_le. reflexivity.
Qed.

(** Two outer iterations of the proximal-gradient solver with one pass
    per row, on the example matrix. *)
Lemma C3_witness :
  (exists s,
     run_loop log_stub idle_minimizer ex_Xr ex_Xr_indptr ex_Xr_indices
       ex_Xc ex_Xc_indptr ex_Xc_indices 2 2 1 0 0 0 1 1 2
       (loop_init [1; 1]%Q [1; 1]%Q (1 # 10) [0%Q] [0%Q]) = Some s /\
     all_nonneg (st_A s) /\ all_nonneg (st_B s)) /\
  (exists r,
     run_poismf log_stub idle_minimizer [1; 1]%Q ex_Xr ex_Xr_indptr ex_Xr_indices
         [1; 1]%Q ex_Xc ex_Xc_indptr ex_Xc_indices 2 2 1 0 0 0 (1 # 10) 2 1 1 zeros
         zeros [zeros] = Some r /\
     all_nonneg (outA r) /\ all_nonneg (outB r)).
Proof.
  destruct (C3_nonneg_after_every_iteration log_stub idle_minimizer
              ex_Xr ex_Xr_indptr ex_Xr_indices ex_Xc ex_Xc_indptr ex_Xc_indices
              2 2 1 0 0 0 1 1 [1; 1]%Q [1; 1]%Q (1 # 10)) as [Hloop Hrun].
  - reflexivity.
  - reflexivity.
  - right. left. lia.
  - split.
    + eexists. split; [vm_compute; reflexivity|].
      apply (Hloop [0%Q] [0%Q] 2).
      * cbn. lia.
      * intros _. cbn. lia.
      * lia.
      * vm_compute. reflexivity.
    + eexists. split; [vm_compute; reflexivity|].
      apply (Hrun 2 zeros zeros [zeros]).
      * lia.
      * vm_compute. reflexivity.
      * reflexivity.
Defined.

(** C4 as first stated fails for a negative [l1_reg], which the driver
    does not add to [cnst_sum]: with [l1_reg = −1], [A = B = [[1]]],
    one observation [x = 1] and [step_size = 1] the pass leaves
    [A = [1]], where the formula with [l1 = l1_reg] gives 2. *)
Lemma C4_counterexample :
  exists s',
    fulliter log_stub idle_minimizer [1%Q] [0; 1] [0] [1%Q] [0; 1] [0]
      1 1 1 0 (-1) 0 1 1 (loop_init [1%Q] [1%Q] 1 [0%Q] [0%Q]) = Some s' /\
    ~ Qeq (st_A s' !!! 0)
          (Nat.iter 1 (spec_pgd_pass 1 [1%Q] 1 [1%Q] [0] 1 1 (-1) 0)
             (row_of [1%Q] 0 1) !!! 0).
Proof.
  eexists. split; [vm_compute; reflexivity|].
  vm_compute. discriminate.
Qed.

(** The first outer iteration on the example matrix, two passes per
    row: row 1 of [A] and row 0 of [B]. *)
Lemma C4_witness :
  let s := loop_init [1; 1]%Q [1; 1]%Q (1 # 10) [0%Q] [0%Q] in
  exists s',
    fulliter log_stub idle_minimizer ex_Xr ex_Xr_indptr ex_Xr_indices
      ex_Xc ex_Xc_indptr ex_Xc_indices 2 2 1 (1 # 10) (1 # 10) 0 2 1 s = Some s' /\
    Qeq (st_A s' !!! 1)
        (Nat.iter 2
           (spec_pgd_pass 1 [1; 1]%Q 2 [3%Q] [0] 1 (1 # 10) (1 # 10) (1 # 10))
           [1%Q] !!! 0) /\
    Qeq (st_B s' !!! 0)
        (Nat.iter 2
           (spec_pgd_pass 1 (st_A s') 2 [1; 3]%Q [0; 1] 2 (1 # 10) (1 # 10) (1 # 10))
           [1%Q] !!! 0).
Proof.
  intros s. eexists. split; [vm_compute; reflexivity|].
  match goal with
  | |- Qeq (st_A ?s' !!! _) _ /\ _ =>
      destruct (C4_pgd_passes log_stub idle_minimizer
                  ex_Xr ex_Xr_indptr ex_Xr_indices ex_Xc ex_Xc_indptr ex_Xc_indices
                  2 2 1 (1 # 10) (1 # 10) 2 1
                  [1; 1]%Q [1; 1]%Q (1 # 10) [0%Q] [0%Q] 0 s s') as [HA HB]
  end.
  - reflexivity.
  - reflexivity.
  - cbn. lia.
  - cbn. lia.
  - reflexivity.
  - vm_compute. reflexivity.
  - split.
    + exact (HA 1 0 ltac:(lia) ltac:(lia)).
    + exact (HB 0 0 ltac:(lia) ltac:(lia)).
Defined.

(** The step size [1/10] is [1/20] during outer iteration 1 and [1/40]
    after it. *)
Lemma C5_witness :
  exists s s',
    run_loop log_stub idle_minimizer ex_Xr ex_Xr_indptr ex_Xr_indices
      ex_Xc ex_Xc_indptr ex_Xc_indices 2 2 1 0 0 0 1 1 1
      (loop_init [1; 1]%Q [1; 1]%Q (1 # 10) [0%Q] [0%Q]) = Some s /\
    fulliter log_stub idle_minimizer ex_Xr ex_Xr_indptr ex_Xr_indices
      ex_Xc ex_Xc_indptr ex_Xc_indices 2 2 1 0 0 0 1 1 s = Some s' /\
    Qeq (st_step_size s) ((1 # 10) * (1 # 2) ^ 1) /\
    Qeq (st_step_size s') ((1 # 10) * (1 # 2) ^ 2).
Proof.
  eexists. eexists.
  split; [vm_compute; reflexivity|]. split; [vm_compute; reflexivity|].
  match goal with
  | |- Qeq (st_step_size ?s) _ /\ Qeq (st_step_size ?s') _ =>
      destruct (C5_step_decay log_stub idle_minimizer
                  ex_Xr ex_Xr_indptr ex_Xr_indices ex_Xc ex_Xc_indptr ex_Xc_indices
                  2 2 1 0 0 1 1 [1; 1]%Q [1; 1]%Q (1 # 10) [0%Q] [0%Q] 1 s s')
        as (H1 & _ & _ & _ & H2)
  end.
  - reflexivity.
  - reflexivity.
  - cbn. lia.
  - cbn. lia.
  - vm_compute. reflexivity.
  - vm_compute. reflexivity.
  - split; [exact H1 | exact H2].
Defined.

(** The second of two further workers fails to allocate. *)
Lemma C7_witness :
  run_poismf log_stub idle_minimizer [1; 1]%Q ex_Xr ex_Xr_indptr ex_Xr_indices
      [1; 1]%Q ex_Xc ex_Xc_indptr ex_Xc_indices 2 2 1 0 0 0 (1 # 10) 3 1 1 zeros
      zeros [zeros; MallocFail]
  = Some {| outA := [1; 1]%Q; outB := [1; 1]%Q;
            stderr := [alloc_error_message]; live := [] |}.
Proof.
  apply (C7_allocation_failure log_stub idle_minimizer
           ex_Xr ex_Xr_indptr ex_Xr_indices ex_Xc ex_Xc_indptr ex_Xc_indices
           2 2 1 0 0 0 1 1 [1; 1]%Q [1; 1]%Q (1 # 10) 3
           zeros zeros [zeros; MallocFail] (fun _ => 0%Q) (fun _ => 0%Q)).
  right. right. apply elem_of_cons. right. apply elem_of_cons. left. reflexivity.
Defined.

(** With [curr = [1; 2]] the prediction is 4 and the three routines are
    defined; with [curr = [0; 0]] it is 0 and none is. *)
Lemma C8_witness :
  let data := {| F := [1; 1; 2; 1]%Q; Fsum := [3; 2]%Q; X := [4%Q]; X_ind := [1];
                 nnz_this := 1; l2_reg := 1 |} in
  (is_Some (calc_grad_pgd [0; 0]%Q [1; 2]%Q [1; 1; 2; 1]%Q [4%Q] [1] 1 2) /\
   is_Some (calc_grad_single [1; 2]%Q 2 [0; 0]%Q data) /\
   is_Some (calc_fun_single log_stub [1; 2]%Q 2 data)) /\
  (calc_grad_pgd [0; 0]%Q [0; 0]%Q [1; 1; 2; 1]%Q [4%Q] [1] 1 2 = None /\
   calc_grad_single [0; 0]%Q 2 [0; 0]%Q data = None /\
   calc_fun_single log_stub [0; 0]%Q 2 data = None).
Proof.
  intros data. split.
  - apply (C8_no_guard_on_pred log_stub idle_minimizer
             [0; 0]%Q [1; 2]%Q [1; 1; 2; 1]%Q [4%Q] [1] 1 2 [0; 0]%Q [3; 2]%Q 1).
    intros i Hi. assert (i = 0) as -> by lia. vm_compute. reflexivity.
  - apply (C8_no_guard_on_pred log_stub idle_minimizer
             [0; 0]%Q [0; 0]%Q [1; 1; 2; 1]%Q [4%Q] [1] 1 2 [0; 0]%Q [3; 2]%Q 1
             ) with (i := 0).
    + lia.
    + vm_compute. reflexivity.
Defined.

(** The column sums of [[1 2 3] [4 5 6]], from two different prior
    contents of [out]. *)
Lemma C9_witness :
  sum_by_cols [7; 7; 7]%Q [1; 2; 3; 4; 5; 6]%Q 2 3 1 !!! 1
    = spec_colsum [1; 2; 3; 4; 5; 6]%Q 2 3 1 /\
  take 3 (sum_by_cols [0; 0; 0; 9]%Q [1; 2; 3; 4; 5; 6]%Q 2 3 1) =
  take 3 (sum_by_cols [7; 7; 7]%Q [1; 2; 3; 4; 5; 6]%Q 2 3 1).
Proof.
  destruct (C9_sum_by_cols_correct [7; 7; 7]%Q [0; 0; 0; 9]%Q [1; 2; 3; 4; 5; 6]%Q
              2 3 1) as [H1 H2].
  - reflexivity.
  - cbn. lia.
  - cbn. lia.
  - split; [apply H1; lia | exact H2].
Defined.

(** Step sizes [1/10] and [−1] (at which [cnst_div] is [1/0]) give the
    same, defined, result. *)
Lemma C10_witness :
  run_poismf log_stub descent_minimizer [1; 1]%Q ex_Xr ex_Xr_indptr ex_Xr_indices
      [1; 1]%Q ex_Xc ex_Xc_indptr ex_Xc_indices 2 2 1 (1 # 2) 0 1 (1 # 10) 2 1 1
      zeros zeros [] =
  run_poismf log_stub descent_minimizer [1; 1]%Q ex_Xr ex_Xr_indptr ex_Xr_indices
      [1; 1]%Q ex_Xc ex_Xc_indptr ex_Xc_indices 2 2 1 (1 # 2) 0 1 (-1) 2 1 1 zeros
      zeros [] /\
  is_Some
    (run_poismf log_stub descent_minimizer [1; 1]%Q ex_Xr ex_Xr_indptr ex_Xr_indices
         [1; 1]%Q ex_Xc ex_Xc_indptr ex_Xc_indices 2 2 1 (1 # 2) 0 1 (-1) 2 1 1
         zeros zeros []).
Proof.
  split.
  - apply (C10_cg_ignores_step_size log_stub descent_minimizer
             ex_Xr ex_Xr_indptr ex_Xr_indices ex_Xc ex_Xc_indptr ex_Xc_indices
             2 2 1 (1 # 2) 0 1 1 1 [1; 1]%Q [1; 1]%Q (1 # 10) (-1) 2 zeros zeros []).
    discriminate.
  - vm_compute. eexists. reflexivity.
Defined.

(** * Instances of the further properties *)

(** The three fallbacks on vectors of two entries. *)
Lemma blas_fallbacks_linear_witness :
  Qeq (cblas_ddot 2 [1; 2]%Q [3; 4]%Q) (cblas_ddot 2 [3; 4]%Q [1; 2]%Q) /\
  Qeq (cblas_ddot 2 (cblas_dscal 2 5 [1; 2]%Q 0) [3; 4]%Q)
      (5 * cblas_ddot 2 [1; 2]%Q [3; 4]%Q) /\
  Qeq (cblas_ddot 2 (cblas_daxpy 2 3 [1; 2]%Q [3; 4]%Q 0) [5; 6]%Q)
      (cblas_ddot 2 [3; 4]%Q [5; 6]%Q + 3 * cblas_ddot 2 [1; 2]%Q [5; 6]%Q).
Proof.
  apply (blas_fallbacks_linear 2 3 5 [1; 2]%Q [3; 4]%Q [5; 6]%Q); cbn; lia.
Defined.

(** Entry 0 lies before the two entries written from offset 1. *)
Lemma blas_fallbacks_frame_witness :
  cblas_daxpy 2 3 [1; 2]%Q [7; 8; 9; 10]%Q 1 !!! 0 = 7%Q /\
  cblas_dscal 2 5 [7; 8; 9; 10]%Q 1 !!! 0 = 7%Q /\
  length (cblas_daxpy 2 3 [1; 2]%Q [7; 8; 9; 10]%Q 1) = 4 /\
  length (cblas_dscal 2 5 [7; 8; 9; 10]%Q 1) = 4.
Proof.
  apply (blas_fallbacks_frame 2 3 5 [1; 2]%Q [7; 8; 9; 10]%Q 1 0). lia.
Defined.

(** A row of two factors inside an array of three entries. *)
Lemma optimize_cg_single_clips_witness :
  exists curr',
    optimize_cg_single log_stub descent_minimizer [1; 2; 9]%Q [4%Q] [1] 1
      [1; 1; 2; 1]%Q [3; 2]%Q 2 1 = Some curr' /\
    length curr' = 3 /\ Qle 0 (curr' !!! 0) /\ curr' !!! 2 = 9%Q.
Proof.
  assert (2 <= length [1; 2; 9]%Q) as Hk by (cbn; lia).
  pose proof (optimize_cg_single_clips log_stub descent_minimizer
                [1; 2; 9]%Q [4%Q] [1] 1 [1; 1; 2; 1]%Q [3; 2]%Q 2 1 Hk) as H.
  cbv zeta in H. revert H.
  destruct (optimize_cg_single log_stub descent_minimizer [1; 2; 9]%Q [4%Q] [1] 1
              [1; 1; 2; 1]%Q [3; 2]%Q 2 1) as [curr'|] eqn:E.
  - destruct (descent_minimizer _ _ _ _ _ _ _ _ _ _ _ _ _ _ _ _) as [p|];
      [|contradiction].
    intros (HL & Hin & Hout). exists curr'. split; [reflexivity|].
    split; [exact HL|]. split; [apply (Hin 0); lia | apply (Hout 2); lia].
  - vm_compute in E. discriminate.
Defined.

(** Two rows of one factor in an array with a third entry after them. *)
Lemma row_loops_frame_witness :
  exists A' buf',
    pgd_iteration [1; 1; 5]%Q [1; 1]%Q ex_Xr ex_Xr_indptr ex_Xr_indices 2 1
      1 [0%Q] (1 # 10) 1 1 [0%Q] = Some (A', buf') /\
    length A' = 3 /\ A' !!! 2 = 5%Q.
Proof.
  destruct (row_loops_frame log_stub idle_minimizer
              [1; 1; 5]%Q [1; 1]%Q ex_Xr ex_Xr_indptr ex_Xr_indices 2 1
              1 [0%Q] (1 # 10) 1 0 1 [0%Q]) as [H _]; [cbn; lia | cbn; lia |].
  revert H.
  destruct (pgd_iteration [1; 1; 5]%Q [1; 1]%Q ex_Xr ex_Xr_indptr ex_Xr_indices 2 1
              1 [0%Q] (1 # 10) 1 1 [0%Q]) as [[A' buf']|] eqn:E;
    [|vm_compute in E; discriminate].
  intros H. exists A', buf'. split; [reflexivity|].
  destruct (H A' buf' eq_refl) as (H1 & _ & H3).
  split; [exact H1 | apply (H3 2); lia].
Defined.

(** The two gradients at [x = [1; 2]], where the prediction is 4. *)
Lemma combined_gradient_from_likelihood_gradient_witness :
  let data := {| F := [1; 1; 2; 1]%Q; Fsum := [3; 2]%Q; X := [4%Q]; X_ind := [1];
                 nnz_this := 1; l2_reg := 1 |} in
  exists g p,
    calc_grad_single [1; 2]%Q 2 [0; 0]%Q data = Some g /\
    calc_grad_pgd [0; 0]%Q [1; 2]%Q [1; 1; 2; 1]%Q [4%Q] [1] 1 2 = Some p /\
    Qeq (g !!! 0) (3 + 2 * inject_Z 2 * 1 * 1 - p !!! 0).
Proof.
  intros data. eexists. eexists.
  split; [vm_compute; reflexivity|]. split; [vm_compute; reflexivity|].
  match goal with
  | |- Qeq (?g !!! 0) (_ - ?p !!! 0) =>
      destruct (combined_gradient_from_likelihood_gradient
                  [1; 2]%Q [0; 0]%Q [0; 0]%Q 2 data) as [_ H];
        [cbn; lia | cbn; lia |
         apply (H g p); [vm_compute; reflexivity | vm_compute; reflexivity | lia] ]
  end.
Defined.


(** The first update of [A] on the example matrix, with step size
    [1/10] and [l1_reg = 1/10]. *)
Lemma cnst_sum_after_each_half_witness :
  let s := loop_init [1; 1]%Q [1; 1]%Q (1 # 10) [0%Q] [0%Q] in
  exists s',
    update_A log_stub idle_minimizer ex_Xr ex_Xr_indptr ex_Xr_indices 2 2 1
      (1 # 10) (1 # 10) 0 2 1 s = Some s' /\
    Qeq (st_cnst_sum s' !!! 0)
        (- (1 # 10) * (spec_colsum [1; 1]%Q 2 1 0 + l1_applied (1 # 10))).
Proof.
  intros s. eexists. split; [vm_compute; reflexivity|].
  match goal with
  | |- Qeq (st_cnst_sum ?s' !!! 0) _ =>
      destruct (cnst_sum_after_each_half log_stub idle_minimizer
                  ex_Xr ex_Xr_indptr ex_Xr_indices ex_Xc ex_Xc_indptr ex_Xc_indices
                  2 2 1 (1 # 10) (1 # 10) 0 2 1 s) as [H _];
        [ | apply (H s' 0); [vm_compute; reflexivity | lia] ]
  end.
  unfold wf_state. cbn. repeat split; lia.
Defined.

(** Row 1 of the matrix has no entry: its factor does not grow. *)
Lemma unobserved_row_shrinks_witness :
  let s := loop_init [1; 1]%Q [1; 1]%Q (1 # 10) [0%Q] [0%Q] in
  exists s',
    update_A log_stub idle_minimizer [1; 2]%Q [0; 2; 2] [0; 1] 2 2 1
      (1 # 10) (1 # 10) 0 2 1 s = Some s' /\
    Qle 0 (st_A s' !!! 1) /\ Qle (st_A s' !!! 1) 1.
Proof.
  intros s. eexists. split; [vm_compute; reflexivity|].
  match goal with
  | |- Qle 0 (st_A ?s' !!! 1) /\ _ =>
      apply (unobserved_row_shrinks log_stub idle_minimizer
               [1; 2]%Q [0; 2; 2] [0; 1] 2 2 1 (1 # 10) (1 # 10) 2 1 s s' 1)
        with (j := 0)
  end.
  - unfold wf_state. cbn. repeat split; lia.
  - vm_compute. reflexivity.
  - lia.
  - cbn. lia.
  - repeat (apply Forall_cons; split; [discriminate|]). apply Forall_nil. exact I.
  - discriminate.
  - discriminate.
  - intros j Hj. assert (j = 0) as -> by lia. discriminate.
  - lia.
Defined.

(** Three outer iterations with no pass over the rows. *)
Lemma no_pass_no_change_witness :
  exists r,
    run_poismf log_stub idle_minimizer [1; 1]%Q ex_Xr ex_Xr_indptr ex_Xr_indices
      [1; 1]%Q ex_Xc ex_Xc_indptr ex_Xc_indices 2 2 1 (1 # 10) (1 # 10) 0 (1 # 10)
      3 0 1 zeros zeros [] = Some r /\
    outA r = [1; 1]%Q /\ outB r = [1; 1]%Q.
Proof.
  eexists. split; [vm_compute; reflexivity|].
  match goal with
  | |- outA ?r = _ /\ _ =>
      apply (no_pass_no_change log_stub idle_minimizer
               [1; 1]%Q ex_Xr ex_Xr_indptr ex_Xr_indices
               [1; 1]%Q ex_Xc ex_Xc_indptr ex_Xc_indices 2 2 1 (1 # 10) (1 # 10)
               (1 # 10) 3 1 zeros zeros [] r)
  end.
  vm_compute. reflexivity.
Defined.

(** A conjugate gradient run with one further worker. *)
Lemma run_poismf_frees_everything_witness :
  exists r,
    run_poismf log_stub descent_minimizer [1; 1]%Q ex_Xr ex_Xr_indptr ex_Xr_indices
      [1; 1]%Q ex_Xc ex_Xc_indptr ex_Xc_indices 2 2 1 (1 # 2) 0 1 (1 # 10)
      2 1 1 zeros zeros [zeros] = Some r /\
    live r = [].
Proof.
  eexists. split; [vm_compute; reflexivity|].
  match goal with
  | |- live ?r = _ =>
      apply (run_poismf_frees_everything log_stub descent_minimizer
               [1; 1]%Q ex_Xr ex_Xr_indptr ex_Xr_indices
               [1; 1]%Q ex_Xc ex_Xc_indptr ex_Xc_indices 2 2 1 (1 # 2) 0 1
               (1 # 10) 2 1 1 zeros zeros [zeros] r)
  end.
  vm_compute. reflexivity.
Defined.

(** A run whose three allocations succeed prints nothing. *)
Lemma diagnostic_iff_allocation_failure_witness :
  exists r,
    run_poismf log_stub idle_minimizer [1; 1]%Q ex_Xr ex_Xr_indptr ex_Xr_indices
      [1; 1]%Q ex_Xc ex_Xc_indptr ex_Xc_indices 2 2 1 0 0 0 (1 # 10)
      1 1 1 zeros zeros [zeros] = Some r /\
    stderr r = [].
Proof.
  eexists. split; [vm_compute; reflexivity|].
  match goal with
  | |- stderr ?r = _ =>
      destruct (diagnostic_iff_allocation_failure log_stub idle_minimizer
                  [1; 1]%Q ex_Xr ex_Xr_indptr ex_Xr_indices
                  [1; 1]%Q ex_Xc ex_Xc_indptr ex_Xc_indices 2 2 1 0 0 0
                  (1 # 10) 1 1 1 zeros zeros [zeros] r) as [_ H];
        [vm_compute; reflexivity | apply H]
  end.
  split; [discriminate|]. split; [discriminate|].
  intros Hin. apply elem_of_cons in Hin. destruct Hin as [Hin|Hin]; [discriminate|].
  inversion Hin.
Defined.

(** Two iterations at step size [1/10], and one iteration followed by a
    second call at the halved step size whose buffers hold sevens. *)
Lemma pgd_run_can_be_resumed_witness :
  run_poismf log_stub idle_minimizer [1; 1]%Q ex_Xr ex_Xr_indptr ex_Xr_indices
    [1; 1]%Q ex_Xc ex_Xc_indptr ex_Xc_indices 2 2 1 (1 # 10) (1 # 10) 0 (1 # 10)
    (1 + 1) 1 1 (MallocOk (fun _ => 0%Q)) (MallocOk (fun _ => 0%Q)) [zeros] =
  (r ← run_poismf log_stub idle_minimizer [1; 1]%Q ex_Xr ex_Xr_indptr ex_Xr_indices
         [1; 1]%Q ex_Xc ex_Xc_indptr ex_Xc_indices 2 2 1 (1 # 10) (1 # 10) 0
         (1 # 10) 1 1 1 (MallocOk (fun _ => 0%Q)) (MallocOk (fun _ => 0%Q)) [zeros];
   run_poismf log_stub idle_minimizer (outA r) ex_Xr ex_Xr_indptr ex_Xr_indices
     (outB r) ex_Xc ex_Xc_indptr ex_Xc_indices 2 2 1 (1 # 10) (1 # 10) 0
     (Nat.iter 1 (fun y => (y * (1 # 2))%Q) (1 # 10)) 1 1 1
     (MallocOk (fun _ => 7%Q)) (MallocOk (fun _ => 7%Q)) [zeros]) /\
  is_Some
    (run_poismf log_stub idle_minimizer [1; 1]%Q ex_Xr ex_Xr_indptr ex_Xr_indices
       [1; 1]%Q ex_Xc ex_Xc_indptr ex_Xc_indices 2 2 1 (1 # 10) (1 # 10) 0 (1 # 10)
       2 1 1 zeros zeros [zeros]).
Proof.
  split.
  - refine (pgd_run_can_be_resumed log_stub idle_minimizer
              [1; 1]%Q ex_Xr ex_Xr_indptr ex_Xr_indices
              [1; 1]%Q ex_Xc ex_Xc_indptr ex_Xc_indices 2 2 1 (1 # 10) (1 # 10)
              (1 # 10) 1 1 1 1 (fun _ => 0%Q) (fun _ => 0%Q)
              (fun _ => 7%Q) (fun _ => 7%Q) [zeros] _).
    intros Hin. apply elem_of_cons in Hin. destruct Hin as [Hin|Hin]; [discriminate|].
    inversion Hin.
  - vm_compute. eexists. reflexivity.
Defined.
